(** * LocationWeather: a shallow embedding of [src/LocationWeather.ts]

    The class [LocationWeather] resolves current weather for a batch of
    locations, going to the weatherbit endpoint for some of them and to a
    process-wide cache object for the others.  Every static method of the
    class is given below as a function of the same name.  The static
    fields ([_cache], [apiKey]) and the two external resources the class
    touches (the file [data.json], the HTTP endpoint) make up an explicit
    [State]; the built-ins and libraries the class calls ([JSON.parse],
    [JSON.stringify], [new Date], [Date.prototype.setHours], [fs.writeFile],
    the transport behind [axios.get], the path syntax of lodash) are the
    fields of an environment [Env] every method is given, and the instants
    at which a call reads the system clock are an argument of the call. *)

From stdpp Require Import base strings list option gmap pretty.
From Stdlib Require Import ZArith Lia Ascii.

#[local] Set Warnings "-register-all".

Local Open Scope string_scope.
Local Open Scope Z_scope.

(** ** JavaScript values *)

Module JS.

(** A number as far as the class can tell numbers apart: it only ever
    converts them to strings (property key, [toString()], template
    literal).  [NInt z] is the integral double of value [z], zero being the
    positive zero, printed in decimal, which is how integers below 10^21 in
    absolute value print. *)
Inductive Number :=
  | NInt (z : Z)
  | NNaN
  | NInfinity (negative : bool).

(** Runtime values.  An array holds [None] at a hole ([Array(11)] is eleven
    holes); an object is its list of own enumerable properties. *)
Inductive Value :=
  | VUndefined
  | VNull
  | VBool (b : bool)
  | VNumber (n : Number)
  | VString (s : string)
  | VArray (elems : list (option Value))
  | VObject (props : list (string * Value)).

Inductive ErrorName := Error | TypeError | ReferenceError.

(** A thrown [Error] object: its constructor and its [message]. *)
Record Exception := { name : ErrorName; message : string }.

Inductive result (A : Type) :=
  | Ok (a : A)
  | Throw (e : Exception).
Arguments Ok {A} a.
Arguments Throw {A} e.

(** [Number.prototype.toString] *)
Definition Number_toString (n : Number) : string :=
  match n with
  | NInt z => pretty z
  | NNaN => "NaN"
  | NInfinity false => "Infinity"
  | NInfinity true => "-Infinity"
  end.

(** [typeof v === 'string' || typeof v === 'number'] *)
Definition is_string_or_number (v : Value) : bool :=
  match v with
  | VString _ | VNumber _ => true
  | _ => false
  end.

(** [Array.prototype.every]: holes are skipped. *)
Definition Array_every (p : Value → bool) (elems : list (option Value)) : bool :=
  forallb (λ e, match e with Some v => p v | None => true end) elems.

(** Property read [v.k] for the names the class reads ([data],
    [city_name], [timezone], [weather], [ob_time], [datetime]): none of
    them exists on a primitive or on an array.  [null] and [undefined]
    have no properties at all, the caller checks for them first. *)
Fixpoint assoc (k : string) (props : list (string * Value)) : Value :=
  match props with
  | [] => VUndefined
  | (k', v) :: rest => if decide (k = k') then v else assoc k rest
  end.

Definition get (v : Value) (k : string) : Value :=
  match v with
  | VObject props => assoc k props
  | _ => VUndefined
  end.

(** [RequireObjectCoercible]: destructuring [null] or [undefined] is a
    [TypeError]. *)
Definition object_coercible (v : Value) : bool :=
  match v with
  | VUndefined | VNull => false
  | _ => true
  end.

(** First step of the iterator of [v], as array destructuring [[x] = v]
    takes it: [None] when [v] is not iterable (a [TypeError]), otherwise
    the first element, [undefined] when there is none. *)
Definition first_of_iterable (v : Value) : option Value :=
  match v with
  | VArray [] => Some VUndefined
  | VArray (None :: _) => Some VUndefined
  | VArray (Some x :: _) => Some x
  | VString EmptyString => Some VUndefined
  | VString (String c _) => Some (VString (String c EmptyString))
  | _ => None
  end.

(** The regular expression [/\d+/]: one or more decimal digits. *)
Definition is_digit (c : ascii) : bool :=
  let n := Ascii.nat_of_ascii c in (48 <=? n)%nat && (n <=? 57)%nat.

(** Longest run of digits at the head of [s]: its length. *)
Fixpoint digits_prefix (s : string) : nat :=
  match s with
  | String c s' => if is_digit c then S (digits_prefix s') else 0%nat
  | EmptyString => 0%nat
  end.

(** [/\d+/.test(s)]: try the pattern at every start position. *)
Fixpoint RegExp_digits_test (s : string) : bool :=
  match s with
  | EmptyString => false
  | String _ s' => (0 <? digits_prefix s)%nat || RegExp_digits_test s'
  end.

(** [s.includes(c)] for a single character. *)
Fixpoint has_char (c : ascii) (s : string) : bool :=
  match s with
  | EmptyString => false
  | String c' s' => Ascii.eqb c c' || has_char c s'
  end.

End JS.
Import JS.

(** ** The class *)

(** [type Location = string | number] *)
Inductive Location :=
  | LString (s : string)
  | LNumber (n : Number).

(** [location.toString()], and as well [`${location}`]. *)
Definition Location_toString (l : Location) : string :=
  match l with
  | LString s => s
  | LNumber n => Number_toString n
  end.

(** The key under which [object[location]], [{ [location]: ... }] and
    lodash's [pick] address a property: property keys are strings, a
    number is converted with [ToString]. *)
Definition ToPropertyKey (l : Location) : string := Location_toString l.

Definition as_location (v : Value) : option Location :=
  match v with
  | VString s => Some (LString s)
  | VNumber n => Some (LNumber n)
  | _ => None
  end.

Definition of_location (l : Location) : Value :=
  match l with
  | LString s => VString s
  | LNumber n => VNumber n
  end.

(** [interface Weather]; a field the response lacks is [undefined]. *)
Record Weather := {
  city_name : Value;
  timezone : Value;
  ob_time : Value;
  weather : Value;
  datetime : Value
}.

(** The own properties of a record: the object literal of
    [_transformWeatherData] defines all five, whatever they hold. *)
Definition Weather_get (w : Weather) (k : string) : option Value :=
  if decide (k = "city_name") then Some (city_name w)
  else if decide (k = "timezone") then Some (timezone w)
  else if decide (k = "ob_time") then Some (ob_time w)
  else if decide (k = "weather") then Some (weather w)
  else if decide (k = "datetime") then Some (datetime w)
  else None.

(** [interface Cache { [key: string]: Weather }]: the own properties of a
    plain object, by key. *)
Abbreviation Cache := (gmap string Weather).

(** [{ ...a, ...b }]: the own properties of both, those of [b] winning. *)
Definition spread (a b : Cache) : Cache := b ∪ a.

(** A plain object of records together with its prototype chain: the own
    properties, and the record that an assignment to [__proto__] has made
    the prototype of the object, if there was one.  [Object.prototype] ends
    the chain either way. *)
Record Obj := { own : Cache; proto : option Weather }.

(** An object literal or [{}]: nothing but [Object.prototype] above it. *)
Definition plain (c : Cache) : Obj := {| own := c; proto := None |}.

Definition own_of (o : option Obj) : Cache :=
  match o with
  | Some o => own o
  | None => ∅
  end.

(** The property names every plain object inherits from
    [Object.prototype]. *)
Definition Object_prototype : list string :=
  ["constructor"; "__defineGetter__"; "__defineSetter__"; "hasOwnProperty";
   "__lookupGetter__"; "__lookupSetter__"; "isPrototypeOf";
   "propertyIsEnumerable"; "toString"; "valueOf"; "__proto__"; "toLocaleString"].

(** What a property of such an object, or of the object the class
    returns, can hold: a record; some other value (a field of a record,
    what lodash builds for a path); or what [Object.prototype] has under
    that name, one of its functions and under [__proto__] itself. *)
Inductive Entry :=
  | EWeather (w : Weather)
  | EValue (v : Value)
  | EInherited (name : string).

(** [interface Cache] as the class returns it. *)
Abbreviation Result := (gmap string Entry).

Definition inherited (k : string) : option Entry :=
  if bool_decide (k ∈ Object_prototype) then Some (EInherited k) else None.

(** [object[k]] where [k in object], [None] where not: own properties
    first, then the chain; [__proto__] reads the prototype itself. *)
Definition member (object : Obj) (k : string) : option Entry :=
  match own object !! k with
  | Some w => Some (EWeather w)
  | None =>
      match proto object with
      | None => inherited k
      | Some r =>
          if decide (k = "__proto__") then Some (EWeather r)
          else match Weather_get r k with
               | Some v => Some (EValue v)
               | None => inherited k
               end
      end
  end.

(** [const { ob_time } = entry]: [None] where that throws a [TypeError],
    which is at [undefined] and [null]. *)
Definition Entry_ob_time (entry : Entry) : option Value :=
  match entry with
  | EWeather w => Some (ob_time w)
  | EValue v => if object_coercible v then Some (get v "ob_time") else None
  | EInherited _ => Some VUndefined
  end.

(** [Object.assign(target, source)] for a [source] that is an object
    literal: every own property of the source is assigned to the target,
    and the assignment to [__proto__] runs the setter of
    [Object.prototype], which makes the record the prototype of the target
    and adds no property. *)
Definition Object_assign (target : Obj) (source : Cache) : Obj :=
  {| own := spread (own target) (delete "__proto__" source);
     proto := match source !! "__proto__" with
              | Some r => Some r
              | None => proto target
              end |}.

(** [{ ...apiData, ...cached }]: own properties only. *)
Definition spread_result (apiData : Obj) (cached : Result) : Result :=
  cached ∪ (EWeather <$> own apiData).

(** A string with the path syntax of lodash in it: a dot or an opening
    bracket. *)
Definition path_syntax (s : string) : bool := has_char "." s || has_char "[" s.

(** The three names lodash has come to treat as unsafe: its later releases
    refuse to set them on the object [pick] builds, its earlier ones set
    them like any other. *)
Definition lodash_unsafe (s : string) : bool :=
  bool_decide (s ∈ ["__proto__"; "constructor"; "prototype"]).

(** A location free of all that: a number, or a string that has no path
    syntax and is none of the three names. *)
Definition plain_location (l : Location) : bool :=
  match l with
  | LNumber _ => true
  | LString s => negb (path_syntax s) && negb (lodash_unsafe s)
  end.

(** Paths that every release of lodash's [pick] uses as one key and sets
    on its result when the object has them: numbers, and, the three names
    apart, strings without path syntax and strings that are a property of
    the object ([isKey]).  Every other path is left to [lodash_path]
    below. *)
Definition direct_key (object : Obj) (path : Location) : bool :=
  match path with
  | LNumber _ => true
  | LString s =>
      negb (lodash_unsafe s)
      && (negb (path_syntax s) || bool_decide (is_Some (member object s)))
  end.

(** The mutable world of the class. *)
Record State := {
  _cache : option Obj;         (* static _cache, [undefined] until first written *)
  apiKey : option string;      (* static apiKey = process.env.API_KEY *)
  data_json : option string;   (* content of ./data.json, [None]: no such file *)
  requests : list string       (* URLs handed to axios.get so far *)
}.

Definition set_cache (c : Obj) (st : State) : State :=
  {| _cache := Some c; apiKey := apiKey st;
     data_json := data_json st; requests := requests st |}.

Definition set_data_json (d : option string) (st : State) : State :=
  {| _cache := _cache st; apiKey := apiKey st;
     data_json := d; requests := requests st |}.

Definition log_request (url : string) (st : State) : State :=
  {| _cache := _cache st; apiKey := apiKey st;
     data_json := data_json st; requests := (requests st ++ [url])%list |}.

(** Computations of the class: they read and write the [State] and either
    return or throw; what was written before a throw stays written. *)
Definition M (A : Type) : Type := State → result A * State.

Global Instance M_ret : MRet M := λ A a st, (Ok a, st).

Global Instance M_bind : MBind M := λ A B k m st,
  match m st with
  | (Ok a, st') => k a st'
  | (Throw e, st') => (Throw e, st')
  end.

Definition throw {A} (n : ErrorName) (msg : string) : M A :=
  λ st, (Throw {| name := n; message := msg |}, st).

Definition try_catch {A} (body : M A) (handler : Exception → M A) : M A :=
  λ st, match body st with
        | (Ok a, st') => (Ok a, st')
        | (Throw e, st') => handler e st'
        end.

Definition gets {A} (f : State → A) : M A := λ st, (Ok (f st), st).
Definition modify (f : State → State) : M unit := λ st, (Ok tt, f st).
Definition lift {A} (r : result A) : M A := λ st, (r, st).

(** Unfolds the plumbing of [M] in the goal. *)
Ltac run_M :=
  unfold try_catch, mbind, M_bind, gets, modify, lift, throw, mret, M_ret.

(** A settled promise: when it settled and how. *)
Record Settled (A : Type) := { settled_at : nat; outcome : result A }.
Arguments settled_at {A} _.
Arguments outcome {A} _.

(** The rejection that [Promise.all] sees first: the earliest one, and
    among rejections of the same instant the one issued first. *)
Fixpoint first_rejection {A} (ps : list (Settled A)) : option (nat * Exception) :=
  match ps with
  | [] => None
  | p :: ps' =>
      match outcome p, first_rejection ps' with
      | Ok _, r => r
      | Throw e, None => Some (settled_at p, e)
      | Throw e, Some (t', e') =>
          if (t' <? settled_at p)%nat then Some (t', e') else Some (settled_at p, e)
      end
  end.

Definition fulfilled {A} (ps : list (Settled A)) : list A :=
  omap (λ p, match outcome p with Ok a => Some a | Throw _ => None end) ps.

(** [Promise.all] ([axios.all]): rejects with the first rejection,
    otherwise fulfils with all values in the order of the input. *)
Definition Promise_all {A} (ps : list (Settled A)) : result (list A) :=
  match first_rejection ps with
  | Some (_, e) => Throw e
  | None => Ok (fulfilled ps)
  end.

(** What [fs.writeFile] did. *)
Inductive WriteOutcome :=
  | Written
  | WriteFailed (e : Exception) (left_on_disk : option string).

(** What the transport makes of a request. *)
Inductive Reply :=
  | Answered (body : string)                  (* a response of accepted status *)
  | Refused (body : string) (e : Exception)   (* a response axios rejects for its status *)
  | Unanswered (e : Exception).               (* no response: axios rejects with [e] *)

(** The built-ins and libraries the class calls, and the outside world it
    talks to. *)
Record Env := {
  (** [JSON.parse], [None] where it throws a [SyntaxError]. *)
  JSON_parse : string → option Value;
  (** [JSON.stringify] on a cache object. *)
  JSON_stringify : Cache → string;
  (** [new Date(v).getTime()], [None] for an invalid date ([NaN]). *)
  Date_new : Value → option Z;
  (** [time.setHours(time.getHours() + 1)] on a date of the given time
      value: the time value it leaves, one hour later on the local clock of
      the process; [None] where that is out of range ([NaN]). *)
  Date_setHours_next : Z → option Z;
  (** What the transport makes of a GET for a URL, and the instant at
      which the promise of [axios.get] settles. *)
  http_get : string → Reply;
  latency : string → nat;
  (** [fs.writeFile(file, content, { flag })] on [data.json], given the
      flag and what the file holds now. *)
  fs_writeFile : option string → option string → string → WriteOutcome;
  (** What one round of lodash's [pick] does to its result for a path that
      is not a [direct_key] of the object: a path it may split at dots and
      brackets and follow into the object, or one of the three names. *)
  lodash_path : Obj → string → Result → Result
}.

Section LocationWeather.

Variable env : Env.

Definition dataUrl : string := "https://api.weatherbit.io/v2.0/current".

(** [_validateLocations] *)
Definition _validateLocations (locations : Value) : result bool :=
  match locations with
  | VArray elems =>
      if (length elems =? 0)%nat then
        Throw {| name := Error; message := "data set should not be empty" |}
      else if (10 <? length elems)%nat then
        Throw {| name := Error;
                 message := "data set should not contain more than 10 entries" |}
      else if negb (Array_every is_string_or_number elems) then
        Throw {| name := TypeError;
                 message := "each location should be a city(string) or zipcode(integer)" |}
      else Ok true
  | _ =>
      Throw {| name := TypeError;
               message := "data set should be an array containing locations and postal codes" |}
  end.

(** The elements [Array.prototype.filter] and [map] visit in a validated
    array: holes are skipped, every other element is a [Location]. *)
Definition locations_of (locations : Value) : list Location :=
  match locations with
  | VArray elems => omap (λ e, e ≫= as_location) elems
  | _ => []
  end.

(** [_locationCacheExpired], [now] being what [new Date()] gives this
    call.  The [try] block throws a [TypeError] when [_cache] is
    [undefined] and when [_cache[location]] is, which the [catch] turns
    into [true]; an invalid date makes the comparison [false]. *)
Definition _locationCacheExpired (now : Z) (location : Location) (st : State) : bool :=
  match _cache st with
  | None => true
  | Some c =>
      match member c (ToPropertyKey location) ≫= Entry_ob_time with
      | None => true
      | Some ob_time =>
          match Date_new env ob_time ≫= Date_setHours_next env with
          | None => false
          | Some time => (now <? time)%Z
          end
      end
  end.

(** [_filterCachedLocations]; [clock i] is what [new Date()] gives the
    call of [_locationCacheExpired] for the [i]-th element that [filter]
    visits, counted from 0. *)
Fixpoint _filterCachedLocations (clock : nat → Z) (flag : bool)
    (locations : list Location) (st : State) : list Location :=
  match locations with
  | [] => []
  | location :: rest =>
      let rest' := _filterCachedLocations (λ i, clock (S i)) flag rest st in
      if Bool.eqb (_locationCacheExpired (clock 0%nat) location st) flag
      then location :: rest'
      else rest'
  end.

(** lodash [pick(object, paths)]: a [null]ish object gives [{}]; a path
    that is used as a key is set on the result when it is [in] the object,
    own or inherited. *)
Definition pick (object : option Obj) (paths : list Location) : Result :=
  match object with
  | None => ∅
  | Some o =>
      foldl (λ result path,
               if direct_key o path then
                 match member o (ToPropertyKey path) with
                 | Some entry => <[ToPropertyKey path := entry]> result
                 | None => result
                 end
               else lodash_path env o (Location_toString path) result)
            ∅ paths
  end.

(** [_getWeatherByLocationsFromCache] *)
Definition _getWeatherByLocationsFromCache (locations : list Location)
    (st : State) : Result :=
  pick (_cache st) locations.

(** [_transformWeatherData], bound to its location as [this]. *)
Definition _transformWeatherData (this : Location) (apiData : string) : result Cache :=
  let no_data := Throw {| name := Error;
                          message := "no weather data for " +:+ Location_toString this |} in
  match JSON_parse env apiData with
  | None => no_data
  | Some weatherData =>
      if negb (object_coercible weatherData) then no_data else
      match first_of_iterable (get weatherData "data") with
      | None => no_data
      | Some first =>
          if negb (object_coercible first) then no_data else
          Ok {[ ToPropertyKey this :=
                  {| city_name := get first "city_name";
                     timezone := get first "timezone";
                     ob_time := get first "ob_time";
                     weather := get first "weather";
                     datetime := get first "datetime" |} ]}
      end
  end.

(** [_request]: which query parameter, which URL. *)
Definition locationType (location : Location) : string :=
  if RegExp_digits_test (Location_toString location) then "postal_code" else "city".

Definition queryParams (location : Location) (key : option string) : string :=
  "?" +:+ locationType location +:+ "=" +:+ Location_toString location
      +:+ "&key=" +:+ default "undefined" key.

(** How the promise of [axios.get] settles: [transformResponse] runs on
    the body of every response, also of one axios rejects for its status,
    and what it throws is the rejection then. *)
Definition settle (location : Location) (reply : Reply) : result Cache :=
  match reply with
  | Answered body => _transformWeatherData location body
  | Refused body e =>
      match _transformWeatherData location body with
      | Throw e' => Throw e'
      | Ok _ => Throw e
      end
  | Unanswered e => Throw e
  end.

Definition _request (location : Location) : M (Settled Cache) :=
  key ← gets apiKey;
  let url := dataUrl +:+ queryParams location key in
  _ ← modify (log_request url);
  mret {| settled_at := latency env url;
          outcome := settle location (http_get env url) |}.

(** [_normalizeApiData]: [Object.assign({}, ...weatherData)] *)
Definition _normalizeApiData (weatherData : list Cache) : Obj :=
  foldl Object_assign (plain ∅) weatherData.

(** [_caccheExists]: the [stat] error is caught and answered [true] as
    well. *)
Definition _caccheExists (st : State) : bool :=
  match data_json st with
  | Some _ => true
  | None => true
  end.

(** [_writeToCache] *)
Definition _writeToCache (data : Obj) : M Obj :=
  cache ← gets _cache;
  let content := JSON_stringify env (spread (own_of cache) (own data)) in
  exists_ ← gets _caccheExists;
  let flag := if exists_ : bool then None else Some "wx" in
  disk ← gets data_json;
  match fs_writeFile env flag disk content with
  | WriteFailed e left_on_disk =>
      _ ← modify (set_data_json left_on_disk);
      lift (Throw e)
  | Written =>
      _ ← modify (set_data_json (Some content));
      _ ← modify (set_cache data);
      mret data
  end.

(** Sequencing of the calls [locations.map(_request)]. *)
Fixpoint mapM {A B} (f : A → M B) (l : list A) : M (list B) :=
  match l with
  | [] => mret []
  | a :: l' => b ← f a; bs ← mapM f l'; mret (b :: bs)
  end.

(** [_getWeatherByLocationsFromApi] *)
Definition _getWeatherByLocationsFromApi (locations : list Location) : M Obj :=
  promises ← mapM _request locations;
  weatherData ← lift (Promise_all promises);
  _writeToCache (_normalizeApiData weatherData).

(** [!LocationWeather.apiKey] *)
Definition falsy (key : option string) : bool :=
  match key with
  | None => true
  | Some s => bool_decide (s = "")
  end.

(** [getWeatherData].  [clock flag i] is what [new Date()] gives the call
    of [_locationCacheExpired] for the [i]-th element visited in the pass
    [_filterCachedLocations(flag, locations)]. *)
Definition getWeatherData (clock : bool → nat → Z) (locations : Value) : M Result :=
  try_catch
    (key ← gets apiKey;
     _ ← (if falsy key then throw ReferenceError "please supply a valid api key"
          else mret tt);
     _ ← lift (_validateLocations locations);
     fromApi ← gets (_filterCachedLocations (clock true) true (locations_of locations));
     fromCache ← gets (_filterCachedLocations (clock false) false (locations_of locations));
     apiData ← (if (length fromApi =? 0)%nat then mret (plain ∅)
                else _getWeatherByLocationsFromApi fromApi);
     cached ← gets (_getWeatherByLocationsFromCache fromCache);
     mret (spread_result apiData cached))
    (λ error, throw Error (message error)).

End LocationWeather.

(** One hour in milliseconds: what an hour on the local clock comes to
    where the offset of the time zone does not change. *)
Definition hour : Z := 3600000.

(** ** A concrete environment

    One instance of [Env], on which the functions above can be run: a
    process in UTC; an endpoint that knows Lagos and the postal code 10005,
    loses the connection on the request for Paris and answers every other
    request with an empty body; observation times in the format the
    endpoint sends them, [YYYY-MM-DD HH:MM]. *)

Module Scenario.

Definition dq : string := String (Ascii.ascii_of_nat 34) EmptyString.
Definition quoted (s : string) : string := dq +:+ s +:+ dq.

Fixpoint join (sep : string) (l : list string) : string :=
  match l with
  | [] => ""
  | [x] => x
  | x :: l' => x +:+ sep +:+ join sep l'
  end.

(** [JSON.stringify] on values whose strings need no escaping; a property
    holding [undefined] is left out, [undefined] in an array is [null]. *)
Fixpoint Value_stringify (v : Value) : string :=
  match v with
  | VUndefined | VNull => "null"
  | VBool true => "true"
  | VBool false => "false"
  | VNumber (NInt z) => pretty z
  | VNumber _ => "null"
  | VString s => quoted s
  | VArray elems =>
      "[" +:+ join "," (map (λ e, match e with
                                  | Some x => Value_stringify x
                                  | None => "null"
                                  end) elems) +:+ "]"
  | VObject props =>
      "{" +:+ join "," (omap (λ '(k, x), match x with
                                         | VUndefined => None
                                         | _ => Some (quoted k +:+ ":" +:+ Value_stringify x)
                                         end) props) +:+ "}"
  end.

Definition Weather_value (w : Weather) : Value :=
  VObject [("city_name", city_name w); ("timezone", timezone w);
           ("ob_time", ob_time w); ("weather", weather w);
           ("datetime", datetime w)].

Definition Cache_stringify (c : Cache) : string :=
  Value_stringify (VObject (prod_map id Weather_value <$> map_to_list c)).

Definition digit_value (c : ascii) : option Z :=
  if is_digit c then Some (Z.of_nat (Ascii.nat_of_ascii c) - 48) else None.

Fixpoint decimal (cs : list ascii) (acc : Z) : option Z :=
  match cs with
  | [] => Some acc
  | c :: cs' => d ← digit_value c; decimal cs' (10 * acc + d)
  end.

(** Days from 1970-01-01 to the given day of the Gregorian calendar. *)
Definition days_from_civil (y m d : Z) : Z :=
  let y' := if m <=? 2 then y - 1 else y in
  let era := y' / 400 in
  let yoe := y' - era * 400 in
  let doy := (153 * (if 2 <? m then m - 3 else m + 9) + 2) / 5 + d - 1 in
  let doe := yoe * 365 + yoe / 4 - yoe / 100 + doy in
  era * 146097 + doe - 719468.

Definition parse_ob_time (s : string) : option Z :=
  match String.list_ascii_of_string s with
  | [y1; y2; y3; y4; "-"; m1; m2; "-"; d1; d2; " "; h1; h2; ":"; n1; n2]%char =>
      y ← decimal [y1; y2; y3; y4] 0;
      m ← decimal [m1; m2] 0;
      d ← decimal [d1; d2] 0;
      h ← decimal [h1; h2] 0;
      n ← decimal [n1; n2] 0;
      if (1 <=? m) && (m <=? 12) && (1 <=? d) && (d <=? 31)
         && (h <=? 23) && (n <=? 59)
      then Some (((days_from_civil y m d * 24 + h) * 60 + n) * 60000)
      else None
  | _ => None
  end.

(** A time value is in range up to 100 000 000 days either side of 1970. *)
Definition time_clip (t : Z) : option Z :=
  if (Z.abs t <=? 8640000000000000) then Some t else None.

Definition time_value (v : Value) : option Z :=
  match v with
  | VString s => parse_ob_time s
  | VNumber (NInt z) => time_clip z
  | VNull => Some 0
  | VBool b => Some (if b then 1 else 0)
  | _ => None
  end.

Definition next_hour (t : Z) : option Z := time_clip (t + hour).

Definition observation (city tz ob dt descr : string) : Value :=
  VObject [("data", VArray [Some (VObject
    [("city_name", VString city); ("timezone", VString tz);
     ("ob_time", VString ob); ("datetime", VString dt);
     ("weather", VObject [("description", VString descr)])])])].

Definition lagos : Value :=
  observation "Lagos" "Africa/Lagos" "2019-03-04 13:15" "2019-03-04:13" "Few clouds".
Definition new_york : Value :=
  observation "New York City" "America/New_York" "2019-03-04 13:00" "2019-03-04:13"
              "Overcast clouds".

Definition parse_body (body : string) : option Value :=
  if decide (body = Value_stringify lagos) then Some lagos
  else if decide (body = Value_stringify new_york) then Some new_york
  else None.

Definition key : string := "0123456789abcdef".

Definition network_error : Exception := {| name := Error; message := "Network Error" |}.

Definition endpoint (url : string) : Reply :=
  if decide (url = dataUrl +:+ "?city=Lagos&key=" +:+ key)
  then Answered (Value_stringify lagos)
  else if decide (url = dataUrl +:+ "?postal_code=10005&key=" +:+ key)
  then Answered (Value_stringify new_york)
  else if decide (url = dataUrl +:+ "?city=Paris&key=" +:+ key)
  then Unanswered network_error
  else Answered "".

(** The connection to Paris is lost at once; Lagos answers faster than
    anything else that is answered. *)
Definition answer_time (url : string) : nat :=
  if decide (url = dataUrl +:+ "?city=Paris&key=" +:+ key) then 10%nat
  else if decide (url = dataUrl +:+ "?city=Lagos&key=" +:+ key) then 40%nat
  else String.length url.

(** A writable disk: only the flag [wx] on an existing file fails. *)
Definition writable (flag disk : option string) (content : string) : WriteOutcome :=
  match flag, disk with
  | Some _, Some _ =>
      WriteFailed {| name := Error; message := "EEXIST: file already exists, open 'data.json'" |}
                  disk
  | _, _ => Written
  end.

(** A disk that refuses every write. *)
Definition read_only (flag disk : option string) (content : string) : WriteOutcome :=
  WriteFailed {| name := Error; message := "EACCES: permission denied, open 'data.json'" |}
              disk.

(** None of the calls below hands [pick] a path with syntax in it or one
    of the three names; here such a path is taken to add nothing. *)
Definition no_path (object : Obj) (path : string) (result : Result) : Result := result.

Definition env : Env :=
  {| JSON_parse := parse_body; JSON_stringify := Cache_stringify;
     Date_new := time_value; Date_setHours_next := next_hour;
     http_get := endpoint; latency := answer_time;
     fs_writeFile := writable; lodash_path := no_path |}.

Definition env_read_only : Env :=
  {| JSON_parse := parse_body; JSON_stringify := Cache_stringify;
     Date_new := time_value; Date_setHours_next := next_hour;
     http_get := endpoint; latency := answer_time;
     fs_writeFile := read_only; lodash_path := no_path |}.

(** A call during which every reading of the clock gives the same
    instant. *)
Definition at_instant (t : Z) : bool → nat → Z := λ _ _, t.

(** A process that has just started, with and without a key. *)
Definition fresh_process : State :=
  {| _cache := None; apiKey := Some key; data_json := None; requests := [] |}.
Definition no_key : State :=
  {| _cache := None; apiKey := Some ""; data_json := None; requests := [] |}.

(** 2019-03-04 13:15 UTC, in milliseconds. *)
Definition observed : Z := 1551705300000.

Definition lagos_record : Weather :=
  {| city_name := VString "Lagos"; timezone := VString "Africa/Lagos";
     ob_time := VString "2019-03-04 13:15";
     weather := VObject [("description", VString "Few clouds")];
     datetime := VString "2019-03-04:13" |}.

(** The process after Lagos has been fetched and written. *)
Definition lagos_cached : State :=
  {| _cache := Some (plain {[ "Lagos" := lagos_record ]}); apiKey := Some key;
     data_json := Some (Cache_stringify {[ "Lagos" := lagos_record ]});
     requests := [dataUrl +:+ "?city=Lagos&key=" +:+ key] |}.

End Scenario.

(** ** Properties *)

(** *** Validation *)

Definition not_an_array : Exception :=
  {| name := TypeError;
     message := "data set should be an array containing locations and postal codes" |}.
Definition empty_set : Exception :=
  {| name := Error; message := "data set should not be empty" |}.
Definition too_many : Exception :=
  {| name := Error; message := "data set should not contain more than 10 entries" |}.
Definition bad_element : Exception :=
  {| name := TypeError;
     message := "each location should be a city(string) or zipcode(integer)" |}.

Lemma Array_every_spec (p : Value → bool) (elems : list (option Value)) :
  Array_every p elems = true ↔ ∀ x, Some x ∈ elems → p x = true.
Proof.
  unfold Array_every. rewrite forallb_forall. split.
  - intros H x Hx. apply (H (Some x)). by apply list_elem_of_In.
  - intros H [x|] Hx; [|done]. apply H. by apply list_elem_of_In.
Qed.

Lemma Array_every_false (p : Value → bool) (elems : list (option Value)) :
  Array_every p elems = false ↔ ∃ x, Some x ∈ elems ∧ p x = false.
Proof.
  induction elems as [|[x|] elems IH]; simpl.
  - split; [done|]. intros (x & Hx & _). by apply elem_of_nil in Hx.
  - destruct (p x) eqn:Hp; simpl.
    + rewrite IH. split.
      * intros (y & Hy & Hpy). exists y. split; [by right|done].
      * intros (y & Hy & Hpy). apply elem_of_cons in Hy as [Hy|Hy].
        -- congruence.
        -- by exists y.
    + split; [|done]. intros _. exists x. split; [by left|done].
  - rewrite IH. split.
    + intros (y & Hy & Hpy). exists y. split; [by right|done].
    + intros (y & Hy & Hpy). apply elem_of_cons in Hy as [Hy|Hy]; [done|by exists y].
Qed.

(** With a key in place, a batch that fails validation fails the call
    with the same message, and the state is as it was. *)
Lemma getWeatherData_invalid env clock locations st e :
  falsy (apiKey st) = false →
  _validateLocations locations = Throw e →
  getWeatherData env clock locations st
    = (Throw {| name := Error; message := message e |}, st).
Proof.
  intros Hkey Hval.
  unfold getWeatherData. run_M.
  rewrite Hkey. simpl. by rewrite Hval.
Qed.

(** C7: [_validateLocations] throws in exactly four cases, each with its
    own constructor and message: the input is not an array (TypeError),
    the array is empty, it has more than ten entries, or one of its
    elements is neither a string nor a number (TypeError).  On every
    array of one to ten entries whose elements are all strings or
    numbers it returns [true]; it is a function of its argument alone,
    and a call of [getWeatherData] that it fails leaves cache, disk and
    request log untouched. *)
Theorem validateLocations_cases (env : Env) (locations : Value) :
  (_validateLocations locations = Throw not_an_array
     ↔ ∀ elems, locations ≠ VArray elems) ∧
  (_validateLocations locations = Throw empty_set
     ↔ locations = VArray []) ∧
  (_validateLocations locations = Throw too_many
     ↔ ∃ elems, locations = VArray elems ∧ (10 < length elems)%nat) ∧
  (_validateLocations locations = Throw bad_element
     ↔ ∃ elems, locations = VArray elems ∧ (1 ≤ length elems ≤ 10)%nat ∧
         ∃ x, Some x ∈ elems ∧ is_string_or_number x = false) ∧
  (_validateLocations locations = Ok true
     ↔ ∃ elems, locations = VArray elems ∧ (1 ≤ length elems ≤ 10)%nat ∧
         ∀ x, Some x ∈ elems → is_string_or_number x = true) ∧
  (∀ r, _validateLocations locations = r →
        r = Ok true ∨ r = Throw not_an_array ∨ r = Throw empty_set ∨
        r = Throw too_many ∨ r = Throw bad_element) ∧
  (∀ clock st e, falsy (apiKey st) = false →
        _validateLocations locations = Throw e →
        getWeatherData env clock locations st
          = (Throw {| name := Error; message := message e |}, st)).
Proof.
  assert (Hnot : ∀ v, (∀ elems, v ≠ VArray elems) →
                      _validateLocations v = Throw not_an_array).
  { intros [] H; try reflexivity. by destruct (H elems). }
  assert (Harr : ∀ elems,
    _validateLocations (VArray elems) =
      if (length elems =? 0)%nat then Throw empty_set
      else if (10 <? length elems)%nat then Throw too_many
      else if negb (Array_every is_string_or_number elems) then Throw bad_element
      else Ok true) by reflexivity.
  split_and!.
  - split; [|apply Hnot]. intros H elems ->. rewrite Harr in H.
    repeat case_match; discriminate.
  - split; [|by intros ->].
    destruct locations; try discriminate. rewrite Harr.
    destruct elems; [done|]. simpl. repeat case_match; discriminate.
  - split.
    + destruct locations; try discriminate. rewrite Harr.
      repeat case_match; try discriminate. intros _. exists elems.
      split; [done|]. by apply Nat.ltb_lt.
    + intros (elems & -> & Hlen). rewrite Harr.
      apply Nat.ltb_lt in Hlen as Hlt. rewrite Hlt.
      destruct elems; simpl in *; [lia|done].
  - split.
    + destruct locations; try discriminate. rewrite Harr.
      destruct (length elems =? 0)%nat eqn:H0; [discriminate|].
      destruct (10 <? length elems)%nat eqn:H10; [discriminate|].
      destruct (Array_every is_string_or_number elems) eqn:Hev; [discriminate|].
      intros _. exists elems. apply Nat.eqb_neq in H0. apply Nat.ltb_ge in H10.
      split_and!; [done|lia|lia|by apply Array_every_false].
    + intros (elems & -> & [Hlo Hhi] & Hbad). rewrite Harr.
      apply Array_every_false in Hbad. rewrite Hbad. simpl.
      replace (length elems =? 0)%nat with false by (symmetry; apply Nat.eqb_neq; lia).
      by replace (10 <? length elems)%nat with false by (symmetry; apply Nat.ltb_ge; lia).
  - split.
    + destruct locations; try discriminate. rewrite Harr.
      destruct (length elems =? 0)%nat eqn:H0; [discriminate|].
      destruct (10 <? length elems)%nat eqn:H10; [discriminate|].
      destruct (Array_every is_string_or_number elems) eqn:Hev; [|discriminate].
      intros _. exists elems. apply Nat.eqb_neq in H0. apply Nat.ltb_ge in H10.
      split_and!; [done|lia|lia|by apply Array_every_spec].
    + intros (elems & -> & [Hlo Hhi] & Hall). rewrite Harr.
      apply Array_every_spec in Hall. rewrite Hall. simpl.
      replace (length elems =? 0)%nat with false by (symmetry; apply Nat.eqb_neq; lia).
      by replace (10 <? length elems)%nat with false by (symmetry; apply Nat.ltb_ge; lia).
  - intros r <-. destruct locations; auto. rewrite Harr.
    repeat case_match; auto 6.
  - intros clock st e. apply getWeatherData_invalid.
Qed.

Lemma validateLocations_cases_witness :
  _validateLocations (VArray [Some (VArray [])]) = Throw bad_element ∧
  _validateLocations (VArray (replicate 11 None)) = Throw too_many ∧
  _validateLocations (VArray (replicate 3 None)) = Ok true ∧
  getWeatherData Scenario.env (Scenario.at_instant 0) (VArray [Some (VArray [])])
    Scenario.fresh_process
    = (Throw {| name := Error;
                message := "each location should be a city(string) or zipcode(integer)" |},
       Scenario.fresh_process).
Proof.
  destruct (validateLocations_cases Scenario.env (VArray [Some (VArray [])]))
    as (_ & _ & _ & Hbad & _ & _ & Hcall).
  destruct (validateLocations_cases Scenario.env (VArray (replicate 11 None)))
    as (_ & _ & Hmany & _).
  destruct (validateLocations_cases Scenario.env (VArray (replicate 3 None)))
    as (_ & _ & _ & _ & Hok & _).
  split_and!.
  - apply Hbad. exists [Some (VArray [])]. split_and!; [reflexivity|simpl; lia..|].
    exists (VArray []). split; [left|reflexivity].
  - apply Hmany. exists (replicate 11 None). split; [reflexivity|simpl; lia].
  - apply Hok. exists (replicate 3 None). split_and!; [reflexivity|simpl; lia..|].
    intros x Hx. apply list_elem_of_In in Hx. simpl in Hx.
    destruct Hx as [[=]|[[=]|[[=]|[]]]].
  - apply (Hcall (Scenario.at_instant 0) Scenario.fresh_process bad_element); reflexivity.
Defined.

(** C5: without a key, or with the empty string for a key,
    [getWeatherData] fails with "please supply a valid api key" whatever
    value it is given for [locations], before that value is looked at;
    nothing is read, fetched or written. *)
Theorem getWeatherData_requires_key env clock (locations : Value) st :
  apiKey st = None ∨ apiKey st = Some "" →
  getWeatherData env clock locations st
    = (Throw {| name := Error; message := "please supply a valid api key" |}, st).
Proof.
  intros Hkey.
  assert (falsy (apiKey st) = true) as Hfalsy by (by destruct Hkey as [-> | ->]).
  unfold getWeatherData. run_M.
  by rewrite Hfalsy.
Qed.

Lemma getWeatherData_requires_key_witness :
  getWeatherData Scenario.env (Scenario.at_instant 0) (VString "") Scenario.no_key
    = (Throw {| name := Error; message := "please supply a valid api key" |},
       Scenario.no_key).
Proof. apply getWeatherData_requires_key. right. reflexivity. Defined.

(** *** The request *)

(** [s] has a decimal digit somewhere. *)
Definition has_digit (s : string) : Prop :=
  ∃ c, In c (String.list_ascii_of_string s) ∧
       In c (String.list_ascii_of_string "0123456789").

Lemma is_digit_spec (c : ascii) :
  is_digit c = true ↔ In c (String.list_ascii_of_string "0123456789").
Proof.
  destruct c as [[] [] [] [] [] [] [] []]; vm_compute;
    (split; [intros H; try discriminate H; tauto | intros H; try reflexivity]);
    repeat (destruct H as [H|H]; [discriminate H|]); destruct H.
Qed.

Lemma digits_prefix_pos (c : ascii) (s : string) :
  (0 <? digits_prefix (String c s))%nat = is_digit c.
Proof. simpl. by destruct (is_digit c). Qed.

Lemma RegExp_digits_test_spec (s : string) :
  RegExp_digits_test s = true ↔ has_digit s.
Proof.
  unfold has_digit. induction s as [|c s IH].
  - split; [done|]. by intros (c & [] & _).
  - cbn [RegExp_digits_test]. rewrite digits_prefix_pos, orb_true_iff, IH, is_digit_spec.
    split.
    + intros [Hc | (d & Hd & Hdig)].
      * exists c. split; [by left|done].
      * exists d. split; [by right|done].
    + intros (d & [<- | Hd] & Hdig); [by left|]. right. by exists d.
Qed.

(** C10: the request names the location [postal_code] exactly when the
    string form of the location has a decimal digit anywhere in it, and
    [city] exactly when it has none; so does the URL handed to the
    transport.  "New York 10" is therefore asked for as a postal code. *)
Theorem request_classification (env : Env) (location : Location) (st : State) :
  let url type :=
    dataUrl +:+ "?" +:+ type +:+ "=" +:+ Location_toString location
            +:+ "&key=" +:+ default "undefined" (apiKey st) in
  (locationType location = "postal_code" ↔ has_digit (Location_toString location)) ∧
  (locationType location = "city" ↔ ¬ has_digit (Location_toString location)) ∧
  requests (_request env location st).2
    = (requests st ++ [url (locationType location)])%list ∧
  locationType (LString "New York 10") = "postal_code" ∧
  locationType (LString "New York") = "city".
Proof.
  intros url. unfold locationType.
  pose proof (RegExp_digits_test_spec (Location_toString location)) as H.
  split_and!; try reflexivity.
  - destruct (RegExp_digits_test _); [tauto|].
    split; [discriminate|]. intros Hd. apply H in Hd. discriminate.
  - destruct (RegExp_digits_test _).
    + split; [discriminate|]. intros Hn. destruct Hn. by apply H.
    + split; [|done]. intros _ Hd. apply H in Hd. discriminate.
Qed.

(** *** Reading the cache *)

Lemma plain_location_direct (object : Obj) (l : Location) :
  plain_location l = true → direct_key object l = true.
Proof.
  destruct l as [s|n]; [|done]. cbn [plain_location direct_key].
  intros [Hsyntax Hsafe]%andb_true_iff. by rewrite Hsafe, Hsyntax.
Qed.

(** [pick] on paths that are all used as keys. *)
Lemma pick_lookup env (o : Obj) (paths : list Location) (k : string) :
  (∀ l, l ∈ paths → direct_key o l = true) →
  pick env (Some o) paths !! k
    = if decide (k ∈ ToPropertyKey <$> paths) then member o k else None.
Proof.
  unfold pick. intros Hdirect.
  set (step := λ (result : Result) (path : Location),
         if direct_key o path then
           match member o (ToPropertyKey path) with
           | Some entry => <[ToPropertyKey path := entry]> result
           | None => result
           end
         else lodash_path env o (Location_toString path) result).
  assert (∀ acc : Result,
    foldl step acc paths !! k
    = if decide (k ∈ ToPropertyKey <$> paths)
      then match member o k with Some v => Some v | None => acc !! k end
      else acc !! k) as Hgen.
  { induction paths as [|p paths IH]; intros acc; cbn [foldl].
    - rewrite fmap_nil. destruct (decide (k ∈ [])) as [Hin|]; [|done].
      by apply elem_of_nil in Hin.
    - rewrite IH by (intros l Hl; apply Hdirect; by right).
      assert (step acc p !! k
              = if decide (k = ToPropertyKey p)
                then match member o k with Some v => Some v | None => acc !! k end
                else acc !! k) as Hstep.
      { unfold step. rewrite (Hdirect p) by left.
        destruct (decide (k = ToPropertyKey p)) as [->|Hne].
        - destruct (member o (ToPropertyKey p)); [by rewrite lookup_insert_eq|done].
        - destruct (member o (ToPropertyKey p)); [by rewrite lookup_insert_ne|done]. }
      rewrite Hstep, fmap_cons.
      destruct (decide (k = ToPropertyKey p)) as [->|Hne].
      + destruct (decide (ToPropertyKey p ∈ ToPropertyKey p :: (ToPropertyKey <$> paths)))
          as [_|Hnin]; [|destruct Hnin; left].
        destruct (decide _); by destruct (member o (ToPropertyKey p)).
      + destruct (decide (k ∈ ToPropertyKey <$> paths)) as [Hin|Hnin].
        * destruct (decide (k ∈ ToPropertyKey p :: (ToPropertyKey <$> paths)))
            as [_|Hn]; [done|]. destruct Hn. by right.
        * destruct (decide (k ∈ ToPropertyKey p :: (ToPropertyKey <$> paths)))
            as [[?|?]%elem_of_cons|_]; done. }
  rewrite Hgen. destruct (decide _); [|done]. by destruct (member o k).
Qed.




(** *** Fetching and writing *)

(** The URL [_request] builds for a location, and the promise it returns. *)
Definition request_url (key : option string) (location : Location) : string :=
  dataUrl +:+ queryParams location key.

Definition answer (env : Env) (key : option string) (location : Location) : Settled Cache :=
  {| settled_at := latency env (request_url key location);
     outcome := settle env location (http_get env (request_url key location)) |}.

Definition log_requests (urls : list string) (st : State) : State :=
  {| _cache := _cache st; apiKey := apiKey st;
     data_json := data_json st; requests := requests st ++ urls |}.

Lemma log_requests_nil st : log_requests [] st = st.
Proof. destruct st. unfold log_requests. simpl. by rewrite app_nil_r. Qed.

Lemma mapM_request env (locations : list Location) (st : State) :
  mapM (_request env) locations st
    = (Ok (answer env (apiKey st) <$> locations),
       log_requests (request_url (apiKey st) <$> locations) st).
Proof.
  revert st. induction locations as [|l ls IH]; intros st.
  - simpl. by rewrite log_requests_nil.
  - cbn [mapM]. unfold mbind at 1, M_bind at 1.
    unfold _request at 1, mbind, M_bind, gets, modify, mret, M_ret.
    fold (@mbind M _). unfold mbind, M_bind. rewrite IH. simpl.
    f_equal. unfold log_requests, log_request. simpl. by rewrite <- app_assoc.
Qed.

(** [_getWeatherByLocationsFromApi], step by step. *)
Lemma getWeatherByLocationsFromApi_unfold env (locations : list Location) st :
  _getWeatherByLocationsFromApi env locations st =
    let st' := log_requests (request_url (apiKey st) <$> locations) st in
    match Promise_all (answer env (apiKey st) <$> locations) with
    | Throw e => (Throw e, st')
    | Ok weatherData => _writeToCache env (_normalizeApiData weatherData) st'
    end.
Proof.
  unfold _getWeatherByLocationsFromApi, mbind, M_bind. rewrite mapM_request.
  unfold lift. by destruct (Promise_all _).
Qed.

(** [getWeatherData] once the key and the batch have been accepted. *)
Lemma getWeatherData_unfold env clock locations st :
  falsy (apiKey st) = false →
  _validateLocations locations = Ok true →
  getWeatherData env clock locations st =
    let fromApi := _filterCachedLocations env (clock true) true (locations_of locations) st in
    let fromCache :=
      _filterCachedLocations env (clock false) false (locations_of locations) st in
    match (if (length fromApi =? 0)%nat then (Ok (plain ∅), st)
           else _getWeatherByLocationsFromApi env fromApi st) with
    | (Ok apiData, st') =>
        (Ok (spread_result apiData (_getWeatherByLocationsFromCache env fromCache st')), st')
    | (Throw e, st') => (Throw {| name := Error; message := message e |}, st')
    end.
Proof.
  intros Hkey Hval.
  unfold getWeatherData. run_M.
  rewrite Hkey. simpl. rewrite Hval. simpl.
  destruct (length _ =? 0)%nat; [done|].
  by destruct (_getWeatherByLocationsFromApi _ _ _) as [[?|?] ?].
Qed.

Lemma writeToCache_unfold env (data : Obj) st :
  _writeToCache env data st =
    let content := JSON_stringify env (spread (own_of (_cache st)) (own data)) in
    match fs_writeFile env None (data_json st) content with
    | Written =>
        (Ok data, {| _cache := Some data; apiKey := apiKey st;
                     data_json := Some content; requests := requests st |})
    | WriteFailed e left_on_disk =>
        (Throw e, {| _cache := _cache st; apiKey := apiKey st;
                     data_json := left_on_disk; requests := requests st |})
    end.
Proof.
  unfold _writeToCache, _caccheExists. run_M.
  simpl. destruct (data_json st); by destruct (fs_writeFile _ _ _ _).
Qed.




(** C4: when the write fails, [_writeToCache] throws the error of the
    write and [_cache] is what it was; a call of [getWeatherData] that got
    as far as the write fails with an [Error] of the same message, and
    [_cache] is what it was before the call. *)
Theorem write_failure_leaves_cache env clock (locations : Value) (st : State) :
  (∀ (data : Obj) e left_on_disk,
     fs_writeFile env None (data_json st)
        (JSON_stringify env (spread (own_of (_cache st)) (own data)))
       = WriteFailed e left_on_disk →
     ∃ st', _writeToCache env data st = (Throw e, st') ∧
            _cache st' = _cache st ∧ apiKey st' = apiKey st) ∧
  (∀ weatherData e left_on_disk,
     let fromApi :=
       _filterCachedLocations env (clock true) true (locations_of locations) st in
     falsy (apiKey st) = false →
     _validateLocations locations = Ok true →
     fromApi ≠ [] →
     Promise_all (answer env (apiKey st) <$> fromApi) = Ok weatherData →
     fs_writeFile env None (data_json st)
        (JSON_stringify env (spread (own_of (_cache st))
                                    (own (_normalizeApiData weatherData))))
       = WriteFailed e left_on_disk →
     ∃ st', getWeatherData env clock locations st
              = (Throw {| name := Error; message := message e |}, st') ∧
            _cache st' = _cache st ∧ apiKey st' = apiKey st).
Proof.
  split.
  - intros data e left_on_disk Hw. rewrite writeToCache_unfold. cbv zeta.
    rewrite Hw. by eexists.
  - intros weatherData e left_on_disk fromApi Hkey Hval Hne Hall Hw.
    rewrite getWeatherData_unfold by done. cbv zeta. fold fromApi.
    destruct fromApi as [|l ls] eqn:Hfrom; [done|].
    cbn [length Nat.eqb]. rewrite getWeatherByLocationsFromApi_unfold. cbv zeta.
    rewrite Hall, writeToCache_unfold. cbv zeta. cbn [log_requests _cache data_json apiKey].
    rewrite Hw. by eexists.
Qed.

Lemma write_failure_leaves_cache_witness :
  (∃ st', _writeToCache Scenario.env_read_only
            (plain {[ "Lagos" := Scenario.lagos_record ]}) Scenario.fresh_process
            = (Throw {| name := Error;
                        message := "EACCES: permission denied, open 'data.json'" |}, st') ∧
          _cache st' = None ∧ apiKey st' = Some Scenario.key) ∧
  (∃ st', getWeatherData Scenario.env_read_only
            (Scenario.at_instant (Scenario.observed + 300000))
            (VArray [Some (VString "Lagos")]) Scenario.fresh_process
            = (Throw {| name := Error;
                        message := "EACCES: permission denied, open 'data.json'" |}, st') ∧
          _cache st' = None ∧ apiKey st' = Some Scenario.key).
Proof.
  pose proof (write_failure_leaves_cache Scenario.env_read_only
                (Scenario.at_instant (Scenario.observed + 300000))
                (VArray [Some (VString "Lagos")]) Scenario.fresh_process) as [Hwrite Hcall].
  split.
  - apply (Hwrite (plain {[ "Lagos" := Scenario.lagos_record ]})
             {| name := Error; message := "EACCES: permission denied, open 'data.json'" |}
             None).
    reflexivity.
  - apply (Hcall [ {[ "Lagos" := Scenario.lagos_record ]} ]
             {| name := Error; message := "EACCES: permission denied, open 'data.json'" |}
             None).
    + reflexivity.
    + reflexivity.
    + vm_compute. discriminate.
    + vm_compute. reflexivity.
    + reflexivity.
Defined.

(** *** One failed fetch fails the batch *)

Definition no_weather_data (location : Location) : Exception :=
  {| name := Error; message := "no weather data for " +:+ Location_toString location |}.

(** The fetch of [location] fails: its promise is rejected. *)
Definition fails (env : Env) (key : option string) (location : Location) : Prop :=
  ∃ e, outcome (answer env key location) = Throw e.

(** The body of a response, where there is one. *)
Definition body_of (reply : Reply) : option string :=
  match reply with
  | Answered body | Refused body _ => Some body
  | Unanswered _ => None
  end.

(** The request for [location] is answered by a response that
    [_transformWeatherData] cannot make a record of. *)
Definition unparsable (env : Env) (key : option string) (location : Location) : Prop :=
  ∃ body e, body_of (http_get env (request_url key location)) = Some body ∧
            _transformWeatherData env location body = Throw e.

(** Whatever goes wrong in [_transformWeatherData], what it throws is
    "no weather data for" its location. *)
Lemma transformWeatherData_throws env this apiData e :
  _transformWeatherData env this apiData = Throw e → e = no_weather_data this.
Proof.
  unfold _transformWeatherData. repeat case_match; intros [=]; done.
Qed.

(** It throws exactly when the body is no JSON, or is [null], or its
    [data] cannot be iterated, or the first element of [data] is missing
    or [null]. *)
Lemma transformWeatherData_throws_iff env this apiData :
  (∃ e, _transformWeatherData env this apiData = Throw e) ↔
  match JSON_parse env apiData with
  | None => True
  | Some weatherData =>
      object_coercible weatherData = false ∨
      match first_of_iterable (get weatherData "data") with
      | None => True
      | Some first => object_coercible first = false
      end
  end.
Proof.
  unfold _transformWeatherData.
  destruct (JSON_parse env apiData) as [wd|]; [|split; eauto].
  destruct (object_coercible wd); simpl; [|split; eauto].
  destruct (first_of_iterable _) as [first|]; [|split; eauto].
  destruct (object_coercible first); simpl; [|split; eauto].
  split; [by intros [e [=]]|]. by intros [|].
Qed.

(** The promise of a request whose response cannot be parsed is rejected
    with "no weather data for" its location. *)
Lemma unparsable_rejection env key (l : Location) e :
  unparsable env key l →
  outcome (answer env key l) = Throw e → e = no_weather_data l.
Proof.
  intros (body & e' & Hbody & Hthrow). cbn [answer outcome].
  apply transformWeatherData_throws in Hthrow as He'.
  destruct (http_get env (request_url key l)) as [b|b e0|e0]; cbn in Hbody |- *;
    [injection Hbody as ->..|discriminate]; rewrite Hthrow; congruence.
Qed.

Lemma first_rejection_None {A} (ps : list (Settled A)) :
  first_rejection ps = None ↔ ∀ p, p ∈ ps → ∃ a, outcome p = Ok a.
Proof.
  induction ps as [|p ps IH]; simpl.
  - split; [|done]. intros _ p Hp. by apply elem_of_nil in Hp.
  - destruct (outcome p) as [a|e] eqn:Hp.
    + rewrite IH. split.
      * intros H q [->|Hq]%elem_of_cons; [by exists a|by apply H].
      * intros H q Hq. apply H. by right.
    + split.
      * destruct (first_rejection ps) as [[t' e']|]; [|done]. by case_match.
      * intros H. destruct (H p) as [a Ha]; [by left|congruence].
Qed.

Lemma first_rejection_Some {A} (ps : list (Settled A)) t e :
  first_rejection ps = Some (t, e) →
  ∃ p, p ∈ ps ∧ outcome p = Throw e ∧ settled_at p = t ∧
       ∀ q e', q ∈ ps → outcome q = Throw e' → (t ≤ settled_at q)%nat.
Proof.
  revert t e. induction ps as [|p ps IH]; intros t e; simpl; [done|].
  destruct (outcome p) as [a|e0] eqn:Hp.
  - intros H. destruct (IH _ _ H) as (p' & Hin & Hout & Ht & Hmin).
    exists p'. split_and!; [by right|done|done|].
    intros q e' [->|Hq]%elem_of_cons Hqe; [congruence|by eapply Hmin].
  - destruct (first_rejection ps) as [[t' e']|] eqn:Hrest.
    + destruct (IH _ _ eq_refl) as (p' & Hin & Hout & Ht & Hmin).
      destruct (t' <? settled_at p)%nat eqn:Hlt; intros [= <- <-].
      * apply Nat.ltb_lt in Hlt. exists p'. split_and!; [by right|done|done|].
        intros q e'' [->|Hq]%elem_of_cons Hqe; [lia|by eapply Hmin].
      * apply Nat.ltb_ge in Hlt. exists p. split_and!; [by left|done|done|].
        intros q e'' [->|Hq]%elem_of_cons Hqe; [done|].
        specialize (Hmin q e'' Hq Hqe). lia.
    + intros [= <- <-]. exists p. split_and!; [by left|done|done|].
      intros q e'' [->|Hq]%elem_of_cons Hqe; [done|].
      destruct (proj1 (first_rejection_None ps) Hrest q Hq) as [a Ha]. congruence.
Qed.

(** A batch with a failing location: the fetch throws what the first
    promise to be rejected is rejected with, after all requests of the
    batch have gone out and before anything is written. *)
Lemma fetch_all_or_nothing env (batch : list Location) (st : State) (l : Location) :
  l ∈ batch → fails env (apiKey st) l →
  ∃ l' e, l' ∈ batch ∧ outcome (answer env (apiKey st) l') = Throw e ∧
          (∀ l'', l'' ∈ batch → fails env (apiKey st) l'' →
             (settled_at (answer env (apiKey st) l')
                ≤ settled_at (answer env (apiKey st) l''))%nat) ∧
          _getWeatherByLocationsFromApi env batch st
            = (Throw e, log_requests (request_url (apiKey st) <$> batch) st).
Proof.
  intros Hl [e He]. rewrite getWeatherByLocationsFromApi_unfold. cbv zeta.
  unfold Promise_all.
  destruct (first_rejection (answer env (apiKey st) <$> batch)) as [[t e']|] eqn:Hfirst.
  - apply first_rejection_Some in Hfirst as (p & Hp & Hout & Ht & Hmin).
    apply list_elem_of_fmap in Hp as (l' & -> & Hl').
    exists l', e'. split_and!; [done|done| |done].
    intros l'' Hl'' [e'' He'']. rewrite Ht.
    apply (Hmin (answer env (apiKey st) l'') e''); [|done].
    apply list_elem_of_fmap. by exists l''.
  - destruct (proj1 (first_rejection_None _) Hfirst (answer env (apiKey st) l))
      as [a Ha]; [|congruence].
    apply list_elem_of_fmap. by exists l.
Qed.

(** C6 as stated does not hold: the endpoint answers the request for
    kjkkssjkjkj with an empty body, which cannot be parsed, and the
    connection for Paris is lost before that answer is there; the call
    fails, but with "Network Error", not with "no weather data for
    kjkkssjkjkj". *)
Lemma lost_connection_names_no_location :
  let batch := VArray [Some (VString "kjkkssjkjkj"); Some (VString "Paris")] in
  let call := getWeatherData Scenario.env (Scenario.at_instant (Scenario.observed + 300000))
                batch Scenario.fresh_process in
  http_get Scenario.env (request_url (Some Scenario.key) (LString "kjkkssjkjkj"))
    = Answered "" ∧
  _transformWeatherData Scenario.env (LString "kjkkssjkjkj") ""
    = Throw (no_weather_data (LString "kjkkssjkjkj")) ∧
  call.1 = Throw {| name := Error; message := "Network Error" |} ∧
  call.1 ≠ Throw {| name := Error; message := "no weather data for kjkkssjkjkj" |}.
Proof. vm_compute. split_and!; [reflexivity..|discriminate]. Qed.

(** C6, amended: if the fetch of a location of the batch handed to
    [_getWeatherByLocationsFromApi] fails, the fetch of the batch throws
    what the first promise of the batch to be rejected is rejected with,
    and the call of [getWeatherData] fails with an [Error] of that
    message: the result is never a mapping, and neither [_cache] nor
    [data.json] is touched.  Where that first rejection comes from a
    response that cannot be parsed, the message is "no weather data for
    <location>" for its location; it is the rejection of the given
    location when no other fetch of the batch fails. *)
Theorem one_failure_fails_the_call env clock (locations : Value) (st : State) :
  let key := apiKey st in
  (∀ (batch : list Location) (l : Location),
     l ∈ batch → fails env key l →
     ∃ l' e, l' ∈ batch ∧ outcome (answer env key l') = Throw e ∧
             (∀ l'', l'' ∈ batch → fails env key l'' →
                (settled_at (answer env key l') ≤ settled_at (answer env key l''))%nat) ∧
             (unparsable env key l' → e = no_weather_data l') ∧
             ((∀ l'', l'' ∈ batch → fails env key l'' → l'' = l) → l' = l) ∧
             _getWeatherByLocationsFromApi env batch st
               = (Throw e, log_requests (request_url key <$> batch) st)) ∧
  (∀ l : Location,
     let batch :=
       _filterCachedLocations env (clock true) true (locations_of locations) st in
     falsy key = false →
     _validateLocations locations = Ok true →
     l ∈ batch → fails env key l →
     ∃ l' e, l' ∈ batch ∧ outcome (answer env key l') = Throw e ∧
             (∀ l'', l'' ∈ batch → fails env key l'' →
                (settled_at (answer env key l') ≤ settled_at (answer env key l''))%nat) ∧
             (unparsable env key l' → e = no_weather_data l') ∧
             ((∀ l'', l'' ∈ batch → fails env key l'' → l'' = l) → l' = l) ∧
             ∃ st', getWeatherData env clock locations st
                      = (Throw {| name := Error; message := message e |}, st') ∧
                    _cache st' = _cache st ∧ data_json st' = data_json st).
Proof.
  intros key. split.
  - intros batch l Hl Hf.
    destruct (fetch_all_or_nothing env batch st l Hl Hf)
      as (l' & e & Hl' & He & Hmin & Hrun).
    exists l', e. split_and!; [done|done|done| | |done].
    + intros Hunp. by eapply unparsable_rejection.
    + intros Honly. apply Honly; [done|by exists e].
  - intros l batch Hkey Hval Hl Hf.
    destruct (fetch_all_or_nothing env batch st l Hl Hf)
      as (l' & e & Hl' & He & Hmin & Hrun).
    exists l', e. split_and!; [done|done|done| | |].
    + intros Hunp. by eapply unparsable_rejection.
    + intros Honly. apply Honly; [done|by exists e].
    + rewrite getWeatherData_unfold by done. cbv zeta. fold batch.
      destruct batch as [|b bs] eqn:Hbatch; [by apply elem_of_nil in Hl|].
      cbn [length Nat.eqb]. rewrite Hrun. by eexists.
Qed.

Lemma one_failure_fails_the_call_witness :
  ∃ st', getWeatherData Scenario.env (Scenario.at_instant (Scenario.observed + 300000))
           (VArray [Some (VString "Lagos"); Some (VString "kjkkssjkjkj")])
           Scenario.fresh_process
           = (Throw {| name := Error; message := "no weather data for kjkkssjkjkj" |}, st') ∧
         _cache st' = None ∧ data_json st' = None.
Proof.
  destruct (proj2 (one_failure_fails_the_call Scenario.env
                     (Scenario.at_instant (Scenario.observed + 300000))
                     (VArray [Some (VString "Lagos"); Some (VString "kjkkssjkjkj")])
                     Scenario.fresh_process)
                  (LString "kjkkssjkjkj"))
    as (l' & e & _ & _ & _ & Hunp & Honly & st' & Hrun & Hcache & Hdisk).
  - reflexivity.
  - reflexivity.
  - apply list_elem_of_In. vm_compute. tauto.
  - eexists. vm_compute. reflexivity.
  - assert (l' = LString "kjkkssjkjkj") as ->.
    { apply Honly. intros l'' Hin [e'' He'']. apply list_elem_of_In in Hin.
      vm_compute in Hin. destruct Hin as [<-|[<-|[]]]; [|reflexivity].
      vm_compute in He''. discriminate He''. }
    rewrite Hunp in Hrun.
    + exists st'. by rewrite Hrun.
    + exists "", (no_weather_data (LString "kjkkssjkjkj")).
      split; vm_compute; reflexivity.
Defined.

(** *** Which locations are fetched, which are read from the cache *)



Lemma filterCachedLocations_elem env clock flag (locations : list Location) st l :
  l ∈ _filterCachedLocations env clock flag locations st ↔
    ∃ i, locations !! i = Some l ∧ _locationCacheExpired env (clock i) l st = flag.
Proof.
  revert clock. induction locations as [|x xs IH]; intros clock;
    cbn [_filterCachedLocations].
  - split; [by intros ?%elem_of_nil|]. by intros (i & ? & _).
  - destruct (Bool.eqb (_locationCacheExpired env (clock 0%nat) x st) flag) eqn:Hx.
    + apply Bool.eqb_prop in Hx. rewrite elem_of_cons, IH. split.
      * intros [->|(i & Hi & Hv)]; [by exists 0%nat|by exists (S i)].
      * intros ([|i] & Hi & Hv); [left; by injection Hi as ->|].
        right. by exists i.
    + rewrite IH. split.
      * intros (i & Hi & Hv). by exists (S i).
      * intros ([|i] & Hi & Hv); [|by exists i].
        injection Hi as ->. rewrite Hv in Hx. by destruct flag.
Qed.

(** The verdict on a location with a record of its own in the cache: it
    is fetched while the hour after the observation has not passed, and
    read from the cache once it has. *)
Lemma routing env now (st : State) l (c : Obj) w time expiry :
  _cache st = Some c → own c !! ToPropertyKey l = Some w →
  Date_new env (ob_time w) = Some time →
  Date_setHours_next env time = Some expiry →
  (now < expiry → _locationCacheExpired env now l st = true) ∧
  (expiry ≤ now → _locationCacheExpired env now l st = false).
Proof.
  intros Hc Hw Ht He. unfold _locationCacheExpired, member.
  rewrite Hc, Hw. cbn. rewrite Ht. cbn. rewrite He.
  split; intros Hcmp; [by apply Z.ltb_lt|by apply Z.ltb_ge].
Qed.

(** C1 (the code departs from it): with a record for Lagos in the cache
    that was observed one minute ago, [getWeatherData] puts Lagos in the
    batch it fetches and not in the one it reads from the cache, and sends
    a second request; two hours after the observation it is the other way
    round, and a record whose observation time is no date is read from
    the cache as well. *)
Theorem fresh_record_is_fetched_again :
  let st := Scenario.lagos_cached in
  let batch := [LString "Lagos"] in
  let a_minute_later := Scenario.observed + 60000 in
  let two_hours_later := Scenario.observed + 2 * hour in
  Date_new Scenario.env (ob_time Scenario.lagos_record) = Some Scenario.observed ∧
  _filterCachedLocations Scenario.env (λ _, a_minute_later) true batch st = batch ∧
  _filterCachedLocations Scenario.env (λ _, a_minute_later) false batch st = [] ∧
  length (requests (getWeatherData Scenario.env (Scenario.at_instant a_minute_later)
                      (VArray [Some (VString "Lagos")]) st).2) = 2%nat ∧
  _filterCachedLocations Scenario.env (λ _, two_hours_later) true batch st = [] ∧
  _filterCachedLocations Scenario.env (λ _, two_hours_later) false batch st = batch ∧
  (getWeatherData Scenario.env (Scenario.at_instant two_hours_later)
     (VArray [Some (VString "Lagos")]) st)
    = (Ok {[ "Lagos" := EWeather Scenario.lagos_record ]}, st) ∧
  _filterCachedLocations Scenario.env (λ _, a_minute_later) false batch
      {| _cache := Some (plain {[ "Lagos" :=
                    {| city_name := VString "Lagos"; timezone := VUndefined;
                       ob_time := VString "last tuesday"; weather := VUndefined;
                       datetime := VUndefined |} ]});
         apiKey := Some Scenario.key; data_json := None; requests := [] |}
    = batch.
Proof. vm_compute. repeat split; reflexivity. Qed.

(** C2 (the code departs from it): a process that has just started is
    asked for Lagos five minutes after the observation and again thirty
    minutes after it.  The first call fetches Lagos and caches the record;
    the second call, well inside the hour, sends the same request once
    more: two requests have gone out, not one. *)
Theorem second_call_fetches_again :
  let lagos := VArray [Some (VString "Lagos")] in
  let first := getWeatherData Scenario.env (Scenario.at_instant (Scenario.observed + 300000))
                 lagos Scenario.fresh_process in
  let second := getWeatherData Scenario.env
                  (Scenario.at_instant (Scenario.observed + 1800000)) lagos first.2 in
  first.1 = Ok {[ "Lagos" := EWeather Scenario.lagos_record ]} ∧
  first.2 = Scenario.lagos_cached ∧
  length (requests first.2) = 1%nat ∧
  Date_new Scenario.env (ob_time Scenario.lagos_record) = Some Scenario.observed ∧
  Scenario.observed + 1800000 < Scenario.observed + hour ∧
  second.1 = Ok {[ "Lagos" := EWeather Scenario.lagos_record ]} ∧
  requests second.2
    = [dataUrl +:+ "?city=Lagos&key=" +:+ Scenario.key;
       dataUrl +:+ "?city=Lagos&key=" +:+ Scenario.key] ∧
  length (requests second.2) = 2%nat.
Proof. vm_compute. repeat split; reflexivity. Qed.

(** *** A number and its string form *)

(** A string of digits and dashes. *)
Fixpoint digits_and_dashes (s : string) : bool :=
  match s with
  | EmptyString => true
  | String c s' => (is_digit c || Ascii.eqb c "-") && digits_and_dashes s'
  end.

Lemma pretty_N_char_digit (x : N) : is_digit (pretty_N_char x) = true.
Proof. unfold pretty_N_char. repeat case_match; reflexivity. Qed.

Lemma pretty_N_go_digits_and_dashes (x : N) (s : string) :
  digits_and_dashes s = true → digits_and_dashes (pretty_N_go x s) = true.
Proof.
  revert s. induction (N.lt_wf_0 x) as [x _ IH]; intros s Hs.
  destruct (decide (x = 0)%N) as [->|Hx]; [by rewrite pretty_N_go_0|].
  rewrite pretty_N_go_step by lia. apply IH; [apply N.div_lt; lia|].
  cbn [digits_and_dashes]. by rewrite pretty_N_char_digit, Hs.
Qed.

Lemma digits_and_dashes_plain (s : string) :
  digits_and_dashes s = true → plain_location (LString s) = true.
Proof.
  intros Hs. cbn [plain_location]. apply andb_true_iff. split.
  - unfold path_syntax.
    assert (∀ c, is_digit c = false → Ascii.eqb c "-" = false → has_char c s = false)
      as Hno.
    { intros c Hd Hm. induction s as [|c' s IH]; [done|]. cbn [has_char].
      cbn [digits_and_dashes] in Hs. apply andb_true_iff in Hs as [Hc' Hs].
      rewrite (IH Hs), orb_false_r. apply Ascii.eqb_neq. intros <-.
      by rewrite Hd, Hm in Hc'. }
    by rewrite !Hno.
  - unfold lodash_unsafe. rewrite bool_decide_eq_false_2; [done|].
    intros Hin. apply list_elem_of_In in Hin.
    destruct Hin as [<-|[<-|[<-|[]]]]; discriminate Hs.
Qed.

(** A number is a plain location in its string form as well. *)
Lemma Number_toString_plain (n : Number) :
  plain_location (LString (Number_toString n)) = true.
Proof.
  destruct n as [[|p|p]| |[]]; try reflexivity; apply digits_and_dashes_plain;
    cbn [Number_toString].
  - change (pretty (Z.pos p)) with (pretty (N.pos p)). unfold pretty, pretty_N.
    destruct (decide _); [done|]. by apply pretty_N_go_digits_and_dashes.
  - change (pretty (Z.neg p)) with (String "-" (pretty (N.pos p))).
    cbn [digits_and_dashes]. cbn. unfold pretty, pretty_N.
    destruct (decide _); [done|]. by apply pretty_N_go_digits_and_dashes.
Qed.

(** C8 as stated does not hold: after 10005 has been fetched as a number,
    the record is found under the string "10005", and a batch that names
    both forms comes back as a single entry. *)
Lemma number_and_string_not_distinct :
  let clock := Scenario.at_instant (Scenario.observed + 300000) in
  let after := (getWeatherData Scenario.env clock (VArray [Some (VNumber (NInt 10005))])
                  Scenario.fresh_process).2 in
  ToPropertyKey (LNumber (NInt 10005)) = ToPropertyKey (LString "10005") ∧
  is_Some (_getWeatherByLocationsFromCache Scenario.env [LString "10005"] after !! "10005") ∧
  ∃ both, (getWeatherData Scenario.env clock
             (VArray [Some (VNumber (NInt 10005)); Some (VString "10005")])
             Scenario.fresh_process).1 = Ok both ∧
          size both = 1%nat.
Proof.
  split_and!.
  - vm_compute. reflexivity.
  - vm_compute. eexists. reflexivity.
  - eexists. split; [vm_compute; reflexivity|]. vm_compute. reflexivity.
Qed.

(** C8, amended: a number and the string of its decimal form are one and
    the same cache key.  Every method that addresses the cache by location
    answers the same for both, a record stored under one is found under
    the other, and a cache cannot hold the two as separate entries. *)
Theorem number_and_string_share_key env (n : Number) :
  let number := LNumber n in
  let text := LString (Number_toString n) in
  Number_toString (NInt 10005) = "10005" ∧
  ToPropertyKey number = ToPropertyKey text ∧
  (∀ now st, _locationCacheExpired env now number st
             = _locationCacheExpired env now text st) ∧
  (∀ st, _getWeatherByLocationsFromCache env [number] st
         = _getWeatherByLocationsFromCache env [text] st) ∧
  (∀ apiData, _transformWeatherData env number apiData
              = _transformWeatherData env text apiData) ∧
  (∀ (c : Cache) w, <[ToPropertyKey number := w]> c !! ToPropertyKey text = Some w) ∧
  (∀ (c : Cache), c !! ToPropertyKey number = c !! ToPropertyKey text).
Proof.
  intros number text.
  assert (ToPropertyKey number = ToPropertyKey text) as Hkey by reflexivity.
  split_and!; try done.
  - intros st. unfold _getWeatherByLocationsFromCache, pick.
    destruct (_cache st) as [c|]; [|done]. cbn [foldl].
    rewrite (plain_location_direct c text) by apply Number_toString_plain.
    reflexivity.
  - intros c w. rewrite Hkey. apply lookup_insert_eq.
Qed.

(** ** Further properties of the class *)

(** *** The two batches *)

Lemma filterCachedLocations_sublist env clock flag (locations : list Location) st :
  _filterCachedLocations env clock flag locations st `sublist_of` locations.
Proof.
  revert clock. induction locations as [|l ls IH]; intros clock; [done|].
  cbn [_filterCachedLocations].
  destruct (Bool.eqb _ _); [apply sublist_skip|apply sublist_cons]; apply IH.
Qed.

Lemma filterCachedLocations_length env clock flag (locations : list Location) st :
  (length (_filterCachedLocations env clock flag locations st) ≤ length locations)%nat.
Proof. apply sublist_length, filterCachedLocations_sublist. Qed.

(** X1: each of [_filterCachedLocations(true, locations)] and
    [_filterCachedLocations(false, locations)] keeps the order of the batch
    and takes a location as often as it occurs there, at most.  When the
    call for an element reads the same instant in both passes, the two
    split the batch: together they are a permutation of it. *)
Theorem filterCachedLocations_partition env (clock : bool → nat → Z)
    (locations : list Location) st :
  let fromApi := _filterCachedLocations env (clock true) true locations st in
  let fromCache := _filterCachedLocations env (clock false) false locations st in
  fromApi `sublist_of` locations ∧
  fromCache `sublist_of` locations ∧
  ((∀ i, clock true i = clock false i) →
   fromApi ++ fromCache ≡ₚ locations ∧
   (length fromApi + length fromCache = length locations)%nat).
Proof.
  intros fromApi fromCache.
  split_and!; [apply filterCachedLocations_sublist..|].
  intros Hsame.
  assert (fromApi ++ fromCache ≡ₚ locations) as Hperm.
  { subst fromApi fromCache.
    assert (∀ c1 c2 : nat → Z, (∀ i, c1 i = c2 i) →
              _filterCachedLocations env c1 true locations st
                ++ _filterCachedLocations env c2 false locations st ≡ₚ locations) as Hgen.
    { induction locations as [|l ls IH]; intros c1 c2 Hc; [done|].
      cbn [_filterCachedLocations]. rewrite <- (Hc 0%nat).
      specialize (IH (λ i, c1 (S i)) (λ i, c2 (S i)) (λ i, Hc (S i))).
      destruct (_locationCacheExpired env (c1 0%nat) l st); cbn [Bool.eqb].
      - cbn [app]. f_equiv. exact IH.
      - rewrite <- Permutation_middle. f_equiv. exact IH. }
    by apply Hgen. }
  split; [done|]. rewrite <- length_app. by rewrite Hperm.
Qed.

Lemma filterCachedLocations_partition_witness :
  _filterCachedLocations Scenario.env (λ _, Scenario.observed + 60000) true
      [LString "Lagos"; LNumber (NInt 10005)] Scenario.lagos_cached
    ++ _filterCachedLocations Scenario.env (λ _, Scenario.observed + 60000) false
         [LString "Lagos"; LNumber (NInt 10005)] Scenario.lagos_cached
    ≡ₚ [LString "Lagos"; LNumber (NInt 10005)].
Proof.
  apply (filterCachedLocations_partition Scenario.env
           (Scenario.at_instant (Scenario.observed + 60000))
           [LString "Lagos"; LNumber (NInt 10005)] Scenario.lagos_cached).
  reflexivity.
Defined.

Lemma filterCachedLocations_all env clock flag (locations : list Location) st :
  (∀ i l, locations !! i = Some l → _locationCacheExpired env (clock i) l st = flag) →
  _filterCachedLocations env clock flag locations st = locations ∧
  _filterCachedLocations env clock (negb flag) locations st = [].
Proof.
  revert clock. induction locations as [|l ls IH]; intros clock Hall; [done|].
  cbn [_filterCachedLocations]. rewrite (Hall 0%nat l) by done.
  destruct (IH (λ i, clock (S i))) as [-> ->].
  { intros i l' Hl'. by apply (Hall (S i)). }
  by destruct flag.
Qed.

Lemma filterCachedLocations_unassigned env (clock : nat → Z)
    (locations : list Location) st :
  _cache st = None →
  _filterCachedLocations env clock true locations st = locations ∧
  _filterCachedLocations env clock false locations st = [].
Proof.
  intros Hc. apply (filterCachedLocations_all env clock true).
  intros i l _. unfold _locationCacheExpired. by rewrite Hc.
Qed.

(** X2: as long as [_cache] has never been assigned, as in a process that has
    just started, the whole batch is fetched and nothing is read from the
    cache, whatever [data.json] holds and whatever the clock says. *)
Theorem unassigned_cache_fetches_all env (clock : nat → Z)
    (locations : list Location) st :
  _cache st = None →
  _filterCachedLocations env clock true locations st = locations ∧
  _filterCachedLocations env clock false locations st = [].
Proof.
  intros Hc. revert clock.
  induction locations as [|l ls IH]; intros clock; [done|].
  cbn [_filterCachedLocations]. unfold _locationCacheExpired at 1 2. rewrite Hc.
  cbn [Bool.eqb]. destruct (IH (λ i, clock (S i))) as [-> ->]. done.
Qed.

Lemma unassigned_cache_fetches_all_witness :
  _filterCachedLocations Scenario.env (λ _, 0) true
      [LString "Lagos"; LNumber (NInt 10005)] Scenario.fresh_process
    = [LString "Lagos"; LNumber (NInt 10005)].
Proof.
  apply (unassigned_cache_fetches_all Scenario.env (λ _, 0)
           [LString "Lagos"; LNumber (NInt 10005)] Scenario.fresh_process).
  reflexivity.
Defined.

(** *** What a fetched batch holds *)

Lemma transformWeatherData_Ok env this apiData (m : Cache) :
  _transformWeatherData env this apiData = Ok m →
  ∃ w, m = {[ ToPropertyKey this := w ]}.
Proof.
  unfold _transformWeatherData. repeat case_match; intros [= <-]; by eexists.
Qed.

Lemma answer_Ok env key (l : Location) (m : Cache) :
  outcome (answer env key l) = Ok m → ∃ w, m = {[ ToPropertyKey l := w ]}.
Proof.
  cbn [answer outcome]. destruct (http_get env _) as [b|b e|e]; cbn [settle].
  - apply transformWeatherData_Ok.
  - by destruct (_transformWeatherData env l b).
  - done.
Qed.

Lemma Promise_all_Ok {A} (ps : list (Settled A)) (vs : list A) :
  Promise_all ps = Ok vs → Forall2 (λ p v, outcome p = Ok v) ps vs.
Proof.
  unfold Promise_all.
  destruct (first_rejection ps) as [[t e]|] eqn:Hfirst; [done|]. intros [= <-].
  pose proof (proj1 (first_rejection_None ps) Hfirst) as Hall. clear Hfirst.
  induction ps as [|p ps IH]; [constructor|].
  destruct (Hall p) as [a Ha]; [by left|].
  unfold fulfilled. cbn [omap list_omap]. rewrite Ha. constructor; [done|].
  apply IH. intros q Hq. apply Hall. by right.
Qed.

Lemma Object_assign_singleton (target : Obj) (key : string) (w : Weather) :
  Object_assign target {[ key := w ]}
    = if decide (key = "__proto__")
      then {| own := own target; proto := Some w |}
      else {| own := <[key := w]> (own target); proto := proto target |}.
Proof.
  unfold Object_assign, spread. destruct (decide (key = "__proto__")) as [->|Hne].
  - rewrite delete_singleton_eq, lookup_singleton_eq. f_equal. apply (left_id_L ∅ (∪)).
  - rewrite delete_singleton_ne, lookup_singleton_ne by done. f_equal.
    by rewrite insert_union_singleton_l.
Qed.

Lemma normalizeApiData_own (batch : list Location) (weatherData : list Cache)
    (acc : Obj) (k : string) :
  Forall2 (λ l (m : Cache), ∃ w, m = {[ ToPropertyKey l := w ]}) batch weatherData →
  is_Some (own (foldl Object_assign acc weatherData) !! k)
    ↔ is_Some (own acc !! k) ∨ (k ∈ ToPropertyKey <$> batch ∧ k ≠ "__proto__").
Proof.
  intros H. revert acc. induction H as [|l m ls ms [w ->] _ IH]; intros acc.
  - cbn. rewrite elem_of_nil. tauto.
  - cbn [foldl]. rewrite IH, Object_assign_singleton, fmap_cons, elem_of_cons.
    destruct (decide (ToPropertyKey l = "__proto__")) as [Hp|Hp]; cbn [own].
    + split; [|intros [?|[[->|?] ?]]; tauto]. tauto.
    + destruct (decide (k = ToPropertyKey l)) as [->|Hne].
      * rewrite lookup_insert_eq. split; [intros _|intros _; left; by eexists].
        right. split; [by left|done].
      * rewrite lookup_insert_ne by done. tauto.
Qed.

Lemma normalizeApiData_proto (batch : list Location) (weatherData : list Cache)
    (acc : Obj) :
  Forall2 (λ l (m : Cache), ∃ w, m = {[ ToPropertyKey l := w ]}) batch weatherData →
  "__proto__" ∉ ToPropertyKey <$> batch →
  proto (foldl Object_assign acc weatherData) = proto acc.
Proof.
  intros H. revert acc. induction H as [|l m ls ms [w ->] _ IH]; intros acc Hnot.
  - done.
  - cbn [foldl]. rewrite fmap_cons, not_elem_of_cons in Hnot. destruct Hnot as [Hl Hls].
    rewrite IH, Object_assign_singleton by done.
    by rewrite decide_False by done.
Qed.

Lemma fetched_singletons env key (batch : list Location) (weatherData : list Cache) :
  Promise_all (answer env key <$> batch) = Ok weatherData →
  Forall2 (λ l (m : Cache), ∃ w, m = {[ ToPropertyKey l := w ]}) batch weatherData.
Proof.
  intros Hall%Promise_all_Ok. apply Forall2_fmap_l in Hall.
  eapply Forall2_impl; [exact Hall|]. intros l m Hm. by apply answer_Ok in Hm.
Qed.

(** A batch that was fetched in full: the object handed to [_writeToCache]
    has one own property for each property key of the batch other than
    [__proto__], and no other. *)
Lemma fetched_batch_keys env (key : option string) (batch : list Location)
    (weatherData : list Cache) (k : string) :
  Promise_all (answer env key <$> batch) = Ok weatherData →
  is_Some (own (_normalizeApiData weatherData) !! k)
    ↔ k ∈ ToPropertyKey <$> batch ∧ k ≠ "__proto__".
Proof.
  intros Hall%fetched_singletons. unfold _normalizeApiData.
  rewrite (normalizeApiData_own batch) by done. cbn [plain own].
  rewrite lookup_empty. split; [intros [[? [=]]|]; done|by right].
Qed.

Lemma fetched_batch_proto env (key : option string) (batch : list Location)
    (weatherData : list Cache) :
  Promise_all (answer env key <$> batch) = Ok weatherData →
  "__proto__" ∉ ToPropertyKey <$> batch →
  proto (_normalizeApiData weatherData) = None.
Proof.
  intros Hall%fetched_singletons Hnot. unfold _normalizeApiData.
  by rewrite (normalizeApiData_proto batch).
Qed.

(** *** The ways a call can go *)

Lemma validateLocations_Ok (locations : Value) (b : bool) :
  _validateLocations locations = Ok b →
  b = true ∧ ∃ elems, locations = VArray elems ∧ (1 ≤ length elems ≤ 10)%nat.
Proof.
  destruct locations; try discriminate. cbn [_validateLocations].
  destruct (length elems =? 0)%nat eqn:H0; [discriminate|].
  destruct (10 <? length elems)%nat eqn:H10; [discriminate|].
  destruct (negb _); [discriminate|]. intros [= <-].
  apply Nat.eqb_neq in H0. apply Nat.ltb_ge in H10.
  split; [done|]. exists elems. split; [done|lia].
Qed.

Lemma locations_of_length (locations : Value) :
  _validateLocations locations = Ok true → (length (locations_of locations) ≤ 10)%nat.
Proof.
  intros (_ & elems & -> & Hlen)%validateLocations_Ok. cbn [locations_of].
  assert (∀ l : list (option Value),
            (length (omap (λ e, e ≫= as_location) l) ≤ length l)%nat) as Hle.
  { induction l as [|e l IH]; [done|]. cbn [omap list_omap].
    destruct (e ≫= as_location); cbn [length]; lia. }
  specialize (Hle elems). lia.
Qed.

Lemma locations_of_elem (elems : list (option Value)) (l : Location) :
  l ∈ locations_of (VArray elems) ↔ Some (of_location l) ∈ elems.
Proof.
  cbn [locations_of]. rewrite list_elem_of_omap. split.
  - intros ([v|] & Hin & Hv); [|done]. cbn in Hv.
    destruct v; try discriminate; injection Hv as <-; exact Hin.
  - intros Hin. exists (Some (of_location l)). split; [done|]. by destruct l.
Qed.

Lemma spread_result_empty (cached : Result) : spread_result (plain ∅) cached = cached.
Proof.
  unfold spread_result. cbn [plain own]. rewrite fmap_empty.
  apply (right_id_L ∅ (∪)).
Qed.

(** Every call of [getWeatherData] goes one of six ways. *)
Lemma getWeatherData_cases env clock (locations : Value) (st : State) :
  let fromApi := _filterCachedLocations env (clock true) true (locations_of locations) st in
  let fromCache :=
    _filterCachedLocations env (clock false) false (locations_of locations) st in
  let sent := (requests st ++ (request_url (apiKey st) <$> fromApi))%list in
  let content weatherData :=
    JSON_stringify env (spread (own_of (_cache st)) (own (_normalizeApiData weatherData))) in
  let call := getWeatherData env clock locations st in
  (falsy (apiKey st) = true ∧
   call = (Throw {| name := Error; message := "please supply a valid api key" |}, st)) ∨
  (falsy (apiKey st) = false ∧ ∃ e,
   _validateLocations locations = Throw e ∧
   call = (Throw {| name := Error; message := message e |}, st)) ∨
  (falsy (apiKey st) = false ∧ _validateLocations locations = Ok true ∧
   ((fromApi = [] ∧
     call = (Ok (pick env (_cache st) fromCache), st)) ∨
    (fromApi ≠ [] ∧ ∃ e,
     Promise_all (answer env (apiKey st) <$> fromApi) = Throw e ∧
     call = (Throw {| name := Error; message := message e |},
             {| _cache := _cache st; apiKey := apiKey st;
                data_json := data_json st; requests := sent |})) ∨
    (fromApi ≠ [] ∧ ∃ weatherData e left_on_disk,
     Promise_all (answer env (apiKey st) <$> fromApi) = Ok weatherData ∧
     fs_writeFile env None (data_json st) (content weatherData)
       = WriteFailed e left_on_disk ∧
     call = (Throw {| name := Error; message := message e |},
             {| _cache := _cache st; apiKey := apiKey st;
                data_json := left_on_disk; requests := sent |})) ∨
    (fromApi ≠ [] ∧ ∃ weatherData,
     Promise_all (answer env (apiKey st) <$> fromApi) = Ok weatherData ∧
     fs_writeFile env None (data_json st) (content weatherData) = Written ∧
     call = (Ok (spread_result (_normalizeApiData weatherData)
                   (pick env (Some (_normalizeApiData weatherData)) fromCache)),
             {| _cache := Some (_normalizeApiData weatherData); apiKey := apiKey st;
                data_json := Some (content weatherData); requests := sent |})))).
Proof.
  intros fromApi fromCache sent content call.
  destruct (falsy (apiKey st)) eqn:Hkey.
  { left. split; [done|]. subst call. unfold getWeatherData. run_M. by rewrite Hkey. }
  right. destruct (_validateLocations locations) as [b|e] eqn:Hval.
  2:{ left. split; [done|]. exists e. split; [done|].
      by apply getWeatherData_invalid. }
  right. apply validateLocations_Ok in Hval as Hb. destruct Hb as [-> _].
  split_and!; [done..|].
  subst call. rewrite getWeatherData_unfold by done. cbv zeta. fold fromApi fromCache.
  destruct fromApi as [|l ls] eqn:Hfrom.
  { left. split; [done|]. cbn [length Nat.eqb].
    unfold _getWeatherByLocationsFromCache. by rewrite spread_result_empty. }
  right. cbn [length Nat.eqb]. rewrite getWeatherByLocationsFromApi_unfold. cbv zeta.
  destruct (Promise_all _) as [weatherData|e] eqn:Hall.
  2:{ left. split; [done|]. by exists e. }
  right. rewrite writeToCache_unfold. cbv zeta.
  cbn [log_requests _cache data_json apiKey requests].
  destruct (fs_writeFile _ _ _ _) as [|e left_on_disk] eqn:Hw.
  - right. split; [done|]. exists weatherData. split_and!; [done|exact Hw|done].
  - left. split; [done|]. exists weatherData, e, left_on_disk.
    split_and!; [done|exact Hw|done].
Qed.

(** A location for which [_locationCacheExpired] answers [false] is a
    property of the cache. *)
Lemma not_expired_member env now (l : Location) (st : State) :
  _locationCacheExpired env now l st = false →
  ∃ c entry, _cache st = Some c ∧ member c (ToPropertyKey l) = Some entry.
Proof.
  unfold _locationCacheExpired. destruct (_cache st) as [c|]; [|done].
  destruct (member c (ToPropertyKey l)) as [entry|] eqn:Hm; [|done].
  intros _. by exists c, entry.
Qed.

(** A property of the object other than the three names is used as a
    key by [pick], dots and brackets or not. *)
Lemma member_direct (c : Obj) (l : Location) :
  is_Some (member c (ToPropertyKey l)) → lodash_unsafe (ToPropertyKey l) = false →
  direct_key c l = true.
Proof.
  destruct l as [s|n]; [|done]. cbn [ToPropertyKey Location_toString direct_key].
  intros Hm ->. rewrite (bool_decide_eq_true_2 _ Hm). by rewrite orb_true_r.
Qed.

(** X3: when no location of the batch is chosen for fetching, the call
    changes nothing: no request, no write, no assignment to [_cache].
    Unless [__proto__], [constructor] or [prototype] is among them, the
    locations read from the cache all are in the result, each with what
    the cache object has under it, own or inherited, and the result has no
    other key. *)
Theorem cached_batch_is_read_only env clock (locations : Value) (st : State) :
  let fromApi := _filterCachedLocations env (clock true) true (locations_of locations) st in
  let fromCache :=
    _filterCachedLocations env (clock false) false (locations_of locations) st in
  falsy (apiKey st) = false →
  _validateLocations locations = Ok true →
  fromApi = [] →
  ∃ result,
    getWeatherData env clock locations st = (Ok result, st) ∧
    ((∀ l, l ∈ fromCache → lodash_unsafe (ToPropertyKey l) = false) →
     (∀ k, result !! k = if decide (k ∈ ToPropertyKey <$> fromCache)
                         then _cache st ≫= (λ c, member c k) else None) ∧
     (∀ l, l ∈ fromCache → is_Some (result !! ToPropertyKey l))).
Proof.
  intros fromApi fromCache Hkey Hval Hnone.
  exists (pick env (_cache st) fromCache). split.
  - destruct (getWeatherData_cases env clock locations st)
      as [[Hk _]|[(_ & e & He & _)|(_ & _ & Hcases)]]; [congruence..|].
    cbv zeta in Hcases. fold fromApi fromCache in Hcases.
    by destruct Hcases as [[_ ->]|[[? _]|[[? _]|[? _]]]].
  - intros Hsafe.
    assert (∀ l, l ∈ fromCache →
              ∃ c entry, _cache st = Some c ∧ member c (ToPropertyKey l) = Some entry)
      as Hmember.
    { intros l (i & _ & Hv)%filterCachedLocations_elem. by eapply not_expired_member. }
    destruct (_cache st) as [c|] eqn:Hc.
    + assert (∀ l, l ∈ fromCache → direct_key c l = true) as Hdirect.
      { intros l Hl. destruct (Hmember l Hl) as (c' & entry & [= <-] & Hm).
        apply member_direct; [by rewrite Hm|by apply Hsafe]. }
      split.
      * intros k. by rewrite pick_lookup.
      * intros l Hl. rewrite pick_lookup by done.
        rewrite decide_True by (by apply list_elem_of_fmap_2).
        destruct (Hmember l Hl) as (c' & entry & [= <-] & ->). by eexists.
    + split.
      * intros k. cbn. rewrite lookup_empty. by destruct (decide _).
      * intros l Hl. by destruct (Hmember l Hl) as (c' & entry & [=] & _).
Qed.

Lemma cached_batch_is_read_only_witness :
  ∃ result,
    getWeatherData Scenario.env (Scenario.at_instant (Scenario.observed + 2 * hour))
      (VArray [Some (VString "Lagos")]) Scenario.lagos_cached
      = (Ok result, Scenario.lagos_cached) ∧
    is_Some (result !! "Lagos").
Proof.
  destruct (cached_batch_is_read_only Scenario.env
              (Scenario.at_instant (Scenario.observed + 2 * hour))
              (VArray [Some (VString "Lagos")]) Scenario.lagos_cached)
    as (result & Hcall & Hall).
  - reflexivity.
  - reflexivity.
  - vm_compute. reflexivity.
  - exists result. split; [exact Hcall|].
    destruct Hall as [_ Hin].
    + intros l Hl. apply list_elem_of_In in Hl. vm_compute in Hl.
      destruct Hl as [<-|[]]. reflexivity.
    + apply (Hin (LString "Lagos")). apply list_elem_of_In. vm_compute. tauto.
Defined.

(** X4: a call that fetches and writes with success has replaced
    [_cache] by the fetched batch before it reads the cache.  When no
    location left to the cache has path syntax, is a name of
    [Object.prototype] or is [prototype], and [__proto__] was not fetched,
    it returns the fetched batch and nothing else: a location left to the cache is in the
    result only if it was fetched as well.  Afterwards [_cache] holds
    exactly one record for each fetched location. *)
Theorem fetched_batch_is_the_result env clock (locations : Value) (st : State)
    (weatherData : list Cache) :
  let fromApi := _filterCachedLocations env (clock true) true (locations_of locations) st in
  let fromCache :=
    _filterCachedLocations env (clock false) false (locations_of locations) st in
  let data := _normalizeApiData weatherData in
  let content := JSON_stringify env (spread (own_of (_cache st)) (own data)) in
  falsy (apiKey st) = false →
  _validateLocations locations = Ok true →
  fromApi ≠ [] →
  Promise_all (answer env (apiKey st) <$> fromApi) = Ok weatherData →
  fs_writeFile env None (data_json st) content = Written →
  "__proto__" ∉ ToPropertyKey <$> fromApi →
  (∀ l, l ∈ fromCache →
        plain_location l = true ∧ ToPropertyKey l ∉ Object_prototype) →
  getWeatherData env clock locations st
    = (Ok (EWeather <$> own data),
       {| _cache := Some data; apiKey := apiKey st; data_json := Some content;
          requests := requests st ++ (request_url (apiKey st) <$> fromApi) |}) ∧
  proto data = None ∧
  (∀ k, is_Some (own data !! k) ↔ k ∈ ToPropertyKey <$> fromApi) ∧
  (∀ l, l ∈ fromCache → ToPropertyKey l ∉ ToPropertyKey <$> fromApi →
        own data !! ToPropertyKey l = None).
Proof.
  intros fromApi fromCache data content Hkey Hval Hne Hall Hw Hproto Hplain.
  assert (∀ k, is_Some (own data !! k) ↔ k ∈ ToPropertyKey <$> fromApi) as Hkeys.
  { intros k. unfold data. rewrite (fetched_batch_keys env (apiKey st) fromApi) by done.
    split; [tauto|]. intros Hk. split; [done|]. by intros ->. }
  assert (proto data = None) as Hnoproto.
  { by apply (fetched_batch_proto env (apiKey st) fromApi). }
  split_and!; [|done|exact Hkeys|].
  - destruct (getWeatherData_cases env clock locations st)
      as [[Hk _]|[(_ & e & He & _)|(_ & _ & Hcases)]]; [congruence..|].
    cbv zeta in Hcases. fold fromApi fromCache in Hcases.
    destruct Hcases as [[Hnil _]|[(_ & e & He & _)|[(_ & wd & e & lf & Hwd & Hf & _)
                                                  |(_ & wd & Hwd & _ & Hcall)]]].
    + done.
    + congruence.
    + rewrite Hall in Hwd. injection Hwd as <-. fold data content in Hf. congruence.
    + rewrite Hall in Hwd. injection Hwd as <-. fold data content in Hcall.
      rewrite Hcall. f_equal. f_equal. unfold spread_result.
      apply map_eq. intros k. rewrite lookup_union, lookup_fmap.
      rewrite pick_lookup by (intros l Hl; apply plain_location_direct, Hplain, Hl).
      destruct (decide (k ∈ ToPropertyKey <$> fromCache)) as [Hin|Hnin].
      * unfold member. rewrite Hnoproto.
        destruct (own data !! k) as [w|]; [done|]. cbn.
        apply list_elem_of_fmap in Hin as (l & -> & Hl).
        unfold inherited. rewrite bool_decide_eq_false_2; [done|]. by apply Hplain.
      * by destruct (own data !! k).
  - intros l _ Hnot. apply eq_None_not_Some. by rewrite Hkeys.
Qed.

Lemma fetched_batch_is_the_result_witness :
  (getWeatherData Scenario.env (Scenario.at_instant (Scenario.observed + 300000))
     (VArray [Some (VString "Lagos")]) Scenario.fresh_process).1
    = Ok (EWeather <$> own (_normalizeApiData [ {[ "Lagos" := Scenario.lagos_record ]} ])).
Proof.
  destruct (fetched_batch_is_the_result Scenario.env
              (Scenario.at_instant (Scenario.observed + 300000))
              (VArray [Some (VString "Lagos")]) Scenario.fresh_process
              [ {[ "Lagos" := Scenario.lagos_record ]} ]) as (Hcall & _).
  - reflexivity.
  - reflexivity.
  - vm_compute. discriminate.
  - vm_compute. reflexivity.
  - reflexivity.
  - intros Hp. apply list_elem_of_In in Hp. vm_compute in Hp. destruct Hp as [[=]|[]].
  - intros l Hl. apply list_elem_of_In in Hl. vm_compute in Hl. destruct Hl.
  - by rewrite Hcall.
Defined.

(** *** What no call does *)

(** X5: the requests of a call that got past the key and the validation: one
    for each location [_locationCacheExpired] answers [true] for, in the
    order of the batch, a location that occurs twice being requested twice;
    all of them go out even when one of the fetches fails or the write
    does.  They are ten at most. *)
Theorem requests_of_a_call env clock (locations : Value) (st : State) :
  let fromApi := _filterCachedLocations env (clock true) true (locations_of locations) st in
  falsy (apiKey st) = false →
  _validateLocations locations = Ok true →
  requests (getWeatherData env clock locations st).2
    = (requests st ++ (request_url (apiKey st) <$> fromApi))%list ∧
  (length fromApi ≤ 10)%nat.
Proof.
  intros fromApi Hkey Hval. split.
  - destruct (getWeatherData_cases env clock locations st)
      as [[Hk _]|[(_ & e & He & _)|(_ & _ & Hcases)]]; [congruence..|].
    cbv zeta in Hcases. fold fromApi in Hcases.
    destruct Hcases as [[Hnil ->]|[(_ & e & _ & ->)|[(_ & wd & e & lf & _ & _ & ->)
                                                    |(_ & wd & _ & _ & ->)]]];
      [|done..].
    rewrite Hnil. cbn. by rewrite app_nil_r.
  - etransitivity; [apply filterCachedLocations_length|by apply locations_of_length].
Qed.

Lemma requests_of_a_call_witness :
  requests (getWeatherData Scenario.env (Scenario.at_instant (Scenario.observed + 300000))
              (VArray [Some (VString "Lagos"); Some (VString "kjkkssjkjkj")])
              Scenario.fresh_process).2
    = [dataUrl +:+ "?city=Lagos&key=" +:+ Scenario.key;
       dataUrl +:+ "?city=kjkkssjkjkj&key=" +:+ Scenario.key].
Proof.
  destruct (requests_of_a_call Scenario.env
              (Scenario.at_instant (Scenario.observed + 300000))
              (VArray [Some (VString "Lagos"); Some (VString "kjkkssjkjkj")])
              Scenario.fresh_process) as [Hreq _].
  - reflexivity.
  - reflexivity.
  - rewrite Hreq. vm_compute. reflexivity.
Defined.

(** X6: whatever it is given, a call of [getWeatherData] leaves [apiKey]
    alone and only appends to the request log, ten requests at most; a
    call that sends no request changes nothing at all.  When it throws,
    what it throws is an [Error] and [_cache] is what it was. *)
Theorem getWeatherData_invariants env clock (locations : Value) (st : State) :
  let call := getWeatherData env clock locations st in
  apiKey call.2 = apiKey st ∧
  requests st `prefix_of` requests call.2 ∧
  (length (requests call.2) ≤ length (requests st) + 10)%nat ∧
  (requests call.2 = requests st → call.2 = st) ∧
  (∀ e, call.1 = Throw e → name e = Error ∧ _cache call.2 = _cache st).
Proof.
  intros call. subst call.
  destruct (getWeatherData_cases env clock locations st)
    as [[_ ->]|[(_ & e & _ & ->)|(Hkey & Hval & Hcases)]].
  - cbn. split_and!; try done; [lia|]. by intros e [= <-].
  - cbn. split_and!; try done; [lia|]. by intros e' [= <-].
  - assert (length (_filterCachedLocations env (clock true) true
                      (locations_of locations) st) ≤ 10)%nat as Hlen.
    { etransitivity; [apply filterCachedLocations_length|by apply locations_of_length]. }
    assert (∀ urls : list string, urls ≠ [] → (requests st ++ urls)%list ≠ requests st)
      as Hgrow.
    { intros urls Hne Heq. apply Hne. apply (f_equal length) in Heq.
      rewrite length_app in Heq. apply nil_length_inv. lia. }
    cbv zeta in Hcases.
    destruct Hcases as [[_ ->]|[(Hne & e & _ & ->)|[(Hne & wd & e & lf & _ & _ & ->)
                                                   |(Hne & wd & _ & _ & ->)]]];
      cbn; rewrite ?length_app, ?length_fmap; split_and!;
      try done; try lia; try (by apply prefix_app_r); try (by intros e' [= <-]);
      intros Heq; exfalso; (eapply Hgrow; [|exact Heq]);
      intros Hnil%fmap_nil_inv; by apply Hne.
Qed.

(** X7: with no location left to the cache that has path syntax or is
    [__proto__], [constructor] or [prototype], the object a call returns
    has no key that was not asked for: each of its keys is the property key of a string or a number
    that is an element of the array given to the call. *)
Theorem result_keys_were_asked_for env clock (locations : Value) (st st' : State)
    (result : Result) (k : string) :
  let fromCache :=
    _filterCachedLocations env (clock false) false (locations_of locations) st in
  getWeatherData env clock locations st = (Ok result, st') →
  (∀ l, l ∈ fromCache → plain_location l = true) →
  is_Some (result !! k) →
  ∃ elems l, locations = VArray elems ∧ Some (of_location l) ∈ elems ∧
             k = ToPropertyKey l.
Proof.
  intros fromCache Hcall Hplain Hk.
  destruct (getWeatherData_cases env clock locations st)
    as [[_ Hc]|[(_ & e & _ & Hc)|(Hkey & Hval & Hcases)]]; [congruence..|].
  destruct (validateLocations_Ok _ _ Hval) as (_ & elems & -> & _).
  exists elems.
  assert (∀ clock' flag, k ∈ ToPropertyKey <$>
                    _filterCachedLocations env clock' flag (locations_of (VArray elems)) st →
                  ∃ l, Some (of_location l) ∈ elems ∧ k = ToPropertyKey l) as Hin.
  { intros clock' flag (l & -> & Hl)%list_elem_of_fmap.
    exists l. split; [|done]. apply locations_of_elem.
    eapply elem_of_sublist; [exact Hl|apply filterCachedLocations_sublist]. }
  assert (∀ o, is_Some (pick env (Some o) fromCache !! k) →
               k ∈ ToPropertyKey <$> fromCache) as Hpick.
  { intros o. rewrite pick_lookup
      by (intros l Hl; by apply plain_location_direct, Hplain).
    destruct (decide _); [done|]. by intros [? [=]]. }
  cbv zeta in Hcases. fold fromCache in Hcases.
  destruct Hcases as [[_ Hc]|[(_ & e & _ & Hc)|[(_ & wd & e & lf & _ & _ & Hc)
                                               |(_ & wd & Hwd & _ & Hc)]]];
    rewrite Hc in Hcall; try discriminate; injection Hcall as <- <-.
  - destruct (_cache st) as [c|].
    + destruct (Hin _ false (Hpick c Hk)) as (l & ? & ?). by exists l.
    + cbn in Hk. rewrite lookup_empty in Hk. by destruct Hk.
  - unfold spread_result in Hk. apply lookup_union_is_Some in Hk as [Hk|Hk].
    + destruct (Hin _ false (Hpick _ Hk)) as (l & ? & ?). by exists l.
    + rewrite lookup_fmap, fmap_is_Some in Hk.
      apply (proj1 (fetched_batch_keys env (apiKey st) _ _ k Hwd)) in Hk as [Hk _].
      destruct (Hin _ true Hk) as (l & ? & ?). by exists l.
Qed.

Lemma result_keys_were_asked_for_witness :
  ∃ elems l, VArray [Some (VString "Lagos")] = VArray elems ∧
             Some (of_location l) ∈ elems ∧ "Lagos" = ToPropertyKey l.
Proof.
  apply (result_keys_were_asked_for Scenario.env
           (Scenario.at_instant (Scenario.observed + 300000))
           (VArray [Some (VString "Lagos")]) Scenario.fresh_process Scenario.lagos_cached
           {[ "Lagos" := EWeather Scenario.lagos_record ]} "Lagos").
  - vm_compute. reflexivity.
  - intros l Hl. apply list_elem_of_In in Hl. vm_compute in Hl. destruct Hl.
  - vm_compute. eexists. reflexivity.
Defined.

(** *** Numbers in the request *)

Lemma pretty_N_go_digits (x : N) (s : string) :
  RegExp_digits_test s = true → RegExp_digits_test (pretty_N_go x s) = true.
Proof.
  revert s. induction (N.lt_wf_0 x) as [x _ IH]; intros s Hs.
  destruct (decide (x = 0)%N) as [->|Hx]; [by rewrite pretty_N_go_0|].
  rewrite pretty_N_go_step by lia. apply IH; [apply N.div_lt; lia|].
  cbn [RegExp_digits_test]. by rewrite digits_prefix_pos, pretty_N_char_digit.
Qed.

Lemma pretty_N_digits (x : N) : RegExp_digits_test (pretty x) = true.
Proof.
  unfold pretty, pretty_N. destruct (decide (x = 0)%N) as [->|Hx]; [done|].
  rewrite pretty_N_go_step by lia. apply pretty_N_go_digits.
  cbn [RegExp_digits_test]. by rewrite digits_prefix_pos, pretty_N_char_digit.
Qed.

(** X8: every integer is requested as a postal code, negative ones and zero
    included; [NaN], [Infinity] and [-Infinity], which pass the validation
    as numbers, are requested as cities of that name. *)
Theorem number_locations (n : Number) :
  locationType (LNumber n)
    = match n with
      | NInt _ => "postal_code"
      | NNaN | NInfinity _ => "city"
      end ∧
  (∀ key, queryParams (LNumber NNaN) (Some key) = "?city=NaN&key=" +:+ key).
Proof.
  split; [|done]. unfold locationType. cbn [Location_toString].
  destruct n as [[|p|p]| |[]]; try reflexivity.
  - cbn [Number_toString]. change (pretty (Z.pos p)) with (pretty (N.pos p)).
    by rewrite pretty_N_digits.
  - cbn [Number_toString].
    change (pretty (Z.neg p)) with (String "-" (pretty (N.pos p))).
    cbn [RegExp_digits_test]. by rewrite pretty_N_digits, orb_true_r.
Qed.

(** *** Holes *)

(** X10: an array of one to ten holes, [Array(5)] for one, passes the
    validation; the call returns the empty object, sends nothing and
    changes nothing. *)
Theorem holes_only_batch env clock (n : nat) (st : State) :
  (1 ≤ n ≤ 10)%nat →
  falsy (apiKey st) = false →
  getWeatherData env clock (VArray (replicate n None)) st = (Ok ∅, st).
Proof.
  intros Hn Hkey.
  assert (_validateLocations (VArray (replicate n None)) = Ok true) as Hval.
  { cbn [_validateLocations]. rewrite length_replicate.
    replace (n =? 0)%nat with false by (symmetry; apply Nat.eqb_neq; lia).
    replace (10 <? n)%nat with false by (symmetry; apply Nat.ltb_ge; lia).
    replace (Array_every is_string_or_number (replicate n None)) with true; [done|].
    symmetry. apply Array_every_spec. by intros x [[=] _]%elem_of_replicate. }
  assert (locations_of (VArray (replicate n None)) = []) as Hlocs.
  { cbn [locations_of]. clear. induction n as [|n IH]; [done|exact IH]. }
  rewrite getWeatherData_unfold by done. cbv zeta. rewrite Hlocs.
  cbn. unfold _getWeatherByLocationsFromCache. cbn.
  rewrite spread_result_empty. by destruct (_cache st).
Qed.

Lemma holes_only_batch_witness :
  getWeatherData Scenario.env (Scenario.at_instant 0) (VArray (replicate 5 None))
    Scenario.lagos_cached
    = (Ok ∅, Scenario.lagos_cached).
Proof.
  apply (holes_only_batch Scenario.env (Scenario.at_instant 0) 5 Scenario.lagos_cached);
    [lia|reflexivity].
Defined.

(** *** Two calls in a row *)

(** X11: a process whose [_cache] was never assigned fetches a batch
    without [__proto__], [constructor] and [prototype] in it and writes
    it; a second call for the same
    batch, made when for every record of the first the instant one hour on
    the local clock after its observation has passed (or its observation
    time is no date), returns the very same object, read back from
    [_cache], and sends and writes nothing. *)
Theorem second_call_reads_back env clock1 clock2 (locations : Value) (st : State)
    (weatherData : list Cache) :
  let data := _normalizeApiData weatherData in
  let first := getWeatherData env clock1 locations st in
  _cache st = None →
  falsy (apiKey st) = false →
  _validateLocations locations = Ok true →
  locations_of locations ≠ [] →
  (∀ l, l ∈ locations_of locations → lodash_unsafe (ToPropertyKey l) = false) →
  Promise_all (answer env (apiKey st) <$> locations_of locations) = Ok weatherData →
  fs_writeFile env None (data_json st) (JSON_stringify env (spread ∅ (own data)))
    = Written →
  (∀ k w time expiry flag i,
     own data !! k = Some w → Date_new env (ob_time w) = Some time →
     Date_setHours_next env time = Some expiry → expiry ≤ clock2 flag i) →
  first.1 = Ok (EWeather <$> own data) ∧
  getWeatherData env clock2 locations first.2 = (Ok (EWeather <$> own data), first.2).
Proof.
  intros data first Hnone Hkey Hval Hne Hsafe Hall Hw Hold.
  assert ("__proto__" ∉ ToPropertyKey <$> locations_of locations) as Hproto.
  { intros (l & Heq & Hl)%list_elem_of_fmap. specialize (Hsafe l Hl).
    by rewrite <- Heq in Hsafe. }
  destruct (filterCachedLocations_unassigned env (clock1 true)
              (locations_of locations) st Hnone) as [Hapi _].
  destruct (filterCachedLocations_unassigned env (clock1 false)
              (locations_of locations) st Hnone) as [_ Hcache1].
  assert (first = (Ok (EWeather <$> own data),
                   {| _cache := Some data; apiKey := apiKey st;
                      data_json := Some (JSON_stringify env (spread ∅ (own data)));
                      requests := requests st
                        ++ (request_url (apiKey st) <$> locations_of locations) |}))
    as Hfirst.
  { subst first.
    destruct (getWeatherData_cases env clock1 locations st)
      as [[Hk _]|[(_ & e & He & _)|(_ & _ & Hcases)]]; [congruence..|].
    cbv zeta in Hcases. rewrite Hapi, Hcache1, Hnone in Hcases. cbn [own_of] in Hcases.
    destruct Hcases as [[Hnil _]|[(_ & e & He & _)|[(_ & wd & e & lf & Hwd & Hf & _)
                                                  |(_ & wd & Hwd & _ & Hcall)]]].
    - done.
    - congruence.
    - rewrite Hall in Hwd. injection Hwd as <-. fold data in Hf. congruence.
    - rewrite Hall in Hwd. injection Hwd as <-. rewrite Hcall. fold data.
      f_equal. f_equal. unfold spread_result. cbn [pick foldl].
      apply (left_id_L ∅ (∪)). }
  rewrite Hfirst. cbn [fst snd]. split; [done|].
  set (st1 := {| _cache := Some data |}).
  assert (∀ k, is_Some (own data !! k) ↔ k ∈ ToPropertyKey <$> locations_of locations)
    as Hkeys.
  { intros k. unfold data.
    rewrite (fetched_batch_keys env (apiKey st) (locations_of locations)) by done.
    split; [tauto|]. intros Hk. split; [done|]. by intros ->. }
  assert (∀ l, l ∈ locations_of locations →
               ∃ w, own data !! ToPropertyKey l = Some w) as Hown.
  { intros l Hl. apply Hkeys. by apply list_elem_of_fmap_2. }
  assert (∀ flag, _filterCachedLocations env (clock2 flag) false
                    (locations_of locations) st1 = locations_of locations
                ∧ _filterCachedLocations env (clock2 flag) true
                    (locations_of locations) st1 = []) as Hstale.
  { intros flag. apply (filterCachedLocations_all env (clock2 flag) false).
    intros i l Hl. unfold _locationCacheExpired, member. cbn [st1 _cache].
    destruct (Hown l) as [w Hw']; [by eapply list_elem_of_lookup_2|].
    rewrite Hw'. cbn.
    destruct (Date_new env (ob_time w)) as [time|] eqn:Ht; [|done]. cbn.
    destruct (Date_setHours_next env time) as [expiry|] eqn:He; [|done].
    apply Z.ltb_ge. by eapply Hold. }
  destruct (Hstale true) as [_ Hnoapi]. destruct (Hstale false) as [Hcache _].
  rewrite getWeatherData_unfold by done. cbv zeta. rewrite Hnoapi, Hcache.
  cbn [length Nat.eqb]. unfold _getWeatherByLocationsFromCache. cbn [st1 _cache].
  rewrite spread_result_empty. f_equal. f_equal.
  apply map_eq. intros k. rewrite lookup_fmap, pick_lookup.
  - destruct (decide (k ∈ ToPropertyKey <$> locations_of locations)) as [Hin|Hnin].
    + apply Hkeys in Hin as [w Hw']. unfold member. by rewrite Hw'.
    + destruct (own data !! k) eqn:Hk; [|done]. destruct Hnin. apply Hkeys. by eexists.
  - intros l Hl. apply member_direct.
    + destruct (Hown l Hl) as [w Hw']. unfold member. rewrite Hw'. by eexists.
    + by apply Hsafe.
Qed.

Lemma second_call_reads_back_witness :
  let first := getWeatherData Scenario.env
                 (Scenario.at_instant (Scenario.observed + 300000))
                 (VArray [Some (VString "Lagos")]) Scenario.fresh_process in
  getWeatherData Scenario.env (Scenario.at_instant (Scenario.observed + 2 * hour))
    (VArray [Some (VString "Lagos")]) first.2
    = (Ok (EWeather <$> own (_normalizeApiData [ {[ "Lagos" := Scenario.lagos_record ]} ])),
       first.2).
Proof.
  apply (second_call_reads_back Scenario.env
           (Scenario.at_instant (Scenario.observed + 300000))
           (Scenario.at_instant (Scenario.observed + 2 * hour))
           (VArray [Some (VString "Lagos")])
           Scenario.fresh_process [ {[ "Lagos" := Scenario.lagos_record ]} ]).
  - reflexivity.
  - reflexivity.
  - reflexivity.
  - vm_compute. discriminate.
  - intros l Hl. apply list_elem_of_In in Hl. vm_compute in Hl.
    destruct Hl as [<-|[]]. reflexivity.
  - vm_compute. reflexivity.
  - reflexivity.
  - intros k w time expiry flag i Hk Ht He.
    assert (own (_normalizeApiData [ {[ "Lagos" := Scenario.lagos_record ]} ])
            = {[ "Lagos" := Scenario.lagos_record ]}) as Hdata.
    { unfold _normalizeApiData. cbn [foldl]. rewrite Object_assign_singleton.
      rewrite decide_False by done. cbn [own plain]. by rewrite insert_empty. }
    rewrite Hdata in Hk. apply lookup_singleton_Some in Hk as [_ <-].
    vm_compute in Ht. injection Ht as <-. vm_compute in He. injection He as <-.
    vm_compute. discriminate.
Defined.
